(** * dumper: the command-line front end and the dump engine it drives

    [GoStrings] and [Dumper] embed [main.go]: the flag variables,
    [validateInputs], [filterExcludeTables], the root command's [Run] and
    [main], with the functions of Go's [strings] package they call.  Go
    strings are byte sequences, so a Go [string] is a Rocq [string] (a list
    of 8-bit [ascii]); Go's [int] is a [Z]; an [error] is [option string],
    [None] being [nil].

    [Engine] is the dump engine behind [dump_util.DumpDatabase], which
    [main.go] only calls: it is modelled from the design document.  The
    properties follow the definitions, one module of facts per module of
    definitions. *)

From Stdlib Require Import ZArith NArith Ascii String DecimalString DecimalZ.
From Stdlib Require Import Lia.
From stdpp Require Import base decidable list strings gmap.

Local Open Scope Z_scope.

(** ** The [strings] package, as far as [main.go] calls it *)

Module GoStrings.

Definition byte (c : ascii) : N := N_of_ascii c.

(** [utf8.RuneSelf]: bytes below it are one-byte runes. *)
Definition RuneSelf : N := 128.

Definition isASCII (s : string) : bool :=
  forallb (fun c => (byte c <? RuneSelf)%N) (list_ascii_of_string s).

Definition isUpper (c : ascii) : bool :=
  ((65 <=? byte c) && (byte c <=? 90))%N.

(** [c += 'a' - 'A'] on an upper-case ASCII letter, any other byte kept. *)
Definition lowerByte (c : ascii) : ascii :=
  if isUpper c then ascii_of_N (byte c + 32) else c.

(** [strings.ToLower].  On an ASCII-only string this is the library's fast
    path, byte by byte.  On a string with a byte >= 0x80 the library maps
    [unicode.ToLower] over the decoded runes; here the bytes >= 0x80 are
    kept as they are.  The two agree on whether the result is an ASCII-only
    string without the letters i and k: in the library a rune >= 0x80 (or
    an invalid byte, decoded as U+FFFD) lower-cases to a rune >= 0x80,
    except U+0130 and U+212A, which give i and k. *)
Fixpoint ToLower (s : string) : string :=
  match s with
  | EmptyString => EmptyString
  | String c r => String (lowerByte c) (ToLower r)
  end.

(** [strings.Split(s, sep)] for a one-byte separator: the pieces between
    the separators, [n + 1] of them for [n] separators. *)
Fixpoint Split (s : string) (sep : ascii) : list string :=
  match s with
  | EmptyString => [EmptyString]
  | String c r =>
      if Ascii.eqb c sep then EmptyString :: Split r sep
      else match Split r sep with
           | p :: ps => String c p :: ps
           | [] => [String c EmptyString]
           end
  end.

(** The [asciiSpace] table: tab, line feed, vertical tab, form feed,
    carriage return, space. *)
Definition asciiSpace (c : ascii) : bool :=
  ((9 <=? byte c) && (byte c <=? 13) || (byte c =? 32))%N.

(** [unicode.IsSpace] on a rune: the Latin-1 cases, then the White_Space
    table. *)
Definition IsSpace (r : N) : bool :=
  ((9 <=? r) && (r <=? 13) || (r =? 32) || (r =? 133) || (r =? 160)
   || (r =? 5760) || (8192 <=? r) && (r <=? 8202) || (r =? 8232)
   || (r =? 8233) || (r =? 8239) || (r =? 8287) || (r =? 12288))%N.

(** The UTF-8 encodings of the white-space runes above U+007F: two bytes
    for U+0085 and U+00A0, three for the others. *)
Definition space2 (c0 c1 : ascii) : bool :=
  ((byte c0 =? 194) && ((byte c1 =? 133) || (byte c1 =? 160)))%N.

Definition space3 (c0 c1 c2 : ascii) : bool :=
  ((byte c0 =? 225) && (byte c1 =? 154) && (byte c2 =? 128)
   || (byte c0 =? 226) && (byte c1 =? 128)
      && ((128 <=? byte c2) && (byte c2 <=? 138)
          || (byte c2 =? 168) || (byte c2 =? 169) || (byte c2 =? 175))
   || (byte c0 =? 226) && (byte c1 =? 129) && (byte c2 =? 159)
   || (byte c0 =? 227) && (byte c1 =? 128) && (byte c2 =? 128))%N.

(** [TrimLeftFunc(s, unicode.IsSpace)]: drop white-space runes from the
    front until the first rune that is not one. *)
Fixpoint trimLeft (s : string) : string :=
  match s with
  | EmptyString => EmptyString
  | String c0 r0 =>
      if asciiSpace c0 then trimLeft r0 else
      match r0 with
      | EmptyString => s
      | String c1 r1 =>
          if space2 c0 c1 then trimLeft r1 else
          match r1 with
          | EmptyString => s
          | String c2 r2 => if space3 c0 c1 c2 then trimLeft r2 else s
          end
      end
  end.

(** [TrimRightFunc(s, unicode.IsSpace)] on the reversed string: the last
    byte comes first, so a rune's bytes are met in reverse. *)
Fixpoint trimLeftRev (s : string) : string :=
  match s with
  | EmptyString => EmptyString
  | String c0 r0 =>
      if asciiSpace c0 then trimLeftRev r0 else
      match r0 with
      | EmptyString => s
      | String c1 r1 =>
          if space2 c1 c0 then trimLeftRev r1 else
          match r1 with
          | EmptyString => s
          | String c2 r2 => if space3 c2 c1 c0 then trimLeftRev r2 else s
          end
      end
  end.

Definition trimRight (s : string) : string :=
  String.rev (trimLeftRev (String.rev s)).

(** [strings.TrimSpace]: leading, then trailing white space removed. *)
Definition TrimSpace (s : string) : string := trimRight (trimLeft s).

(** [utf8.EncodeRune] on a valid rune. *)
Definition EncodeRune (r : N) : string :=
  let b (n : N) := ascii_of_N n in
  (if r <? 128 then String (b r) ""
   else if r <? 2048 then
     String (b (192 + r / 64)) (String (b (128 + r mod 64)) "")
   else if r <? 65536 then
     String (b (224 + r / 4096))
       (String (b (128 + (r / 64) mod 64)) (String (b (128 + r mod 64)) ""))
   else
     String (b (240 + r / 262144))
       (String (b (128 + (r / 4096) mod 64))
          (String (b (128 + (r / 64) mod 64))
             (String (b (128 + r mod 64)) ""))))%N.

(** The rune a two-byte and a three-byte sequence encode. *)
Definition rune2 (c0 c1 : ascii) : N :=
  ((byte c0 - 192) * 64 + (byte c1 - 128))%N.

Definition rune3 (c0 c1 c2 : ascii) : N :=
  ((byte c0 - 224) * 4096 + (byte c1 - 128) * 64 + (byte c2 - 128))%N.

(** The shape of a white-space rune's encoding: one of the three byte
    patterns [trimLeft] looks for. *)
Inductive SpaceBytes : string -> Prop :=
| SpaceBytes1 c : asciiSpace c = true -> SpaceBytes (String c "")
| SpaceBytes2 c0 c1 :
    space2 c0 c1 = true -> SpaceBytes (String c0 (String c1 ""))
| SpaceBytes3 c0 c1 c2 :
    space3 c0 c1 c2 = true ->
    SpaceBytes (String c0 (String c1 (String c2 ""))).

(** The string starts with a white-space rune. *)
Definition headSpace (s : string) : bool :=
  match s with
  | EmptyString => false
  | String c0 r0 =>
      asciiSpace c0
      || match r0 with
         | EmptyString => false
         | String c1 r1 =>
             space2 c0 c1
             || match r1 with
                | EmptyString => false
                | String c2 _ => space3 c0 c1 c2
                end
         end
  end.

(** The same on the reversed string. *)
Definition headSpaceRev (s : string) : bool :=
  match s with
  | EmptyString => false
  | String c0 r0 =>
      asciiSpace c0
      || match r0 with
         | EmptyString => false
         | String c1 r1 =>
             space2 c1 c0
             || match r1 with
                | EmptyString => false
                | String c2 _ => space3 c2 c1 c0
                end
         end
  end.

(** The string ends with a white-space rune. *)
Definition lastSpace (s : string) : bool := headSpaceRev (String.rev s).

(** Strings made of white-space runes only. *)
Inductive Spaces : string -> Prop :=
| Spaces_nil : Spaces ""
| Spaces_cons r s :
    IsSpace r = true -> Spaces s -> Spaces (EncodeRune r +:+ s).

(** The byte [c] occurs in [s]. *)
Fixpoint hasByte (c : ascii) (s : string) : bool :=
  match s with
  | EmptyString => false
  | String d r => Ascii.eqb d c || hasByte c r
  end.

(** How often the byte [c] occurs in [s]. *)
Fixpoint countByte (c : ascii) (s : string) : nat :=
  match s with
  | EmptyString => 0%nat
  | String d r => (if Ascii.eqb d c then 1 else 0)%nat + countByte c r
  end.

Definition isLower (c : ascii) : bool :=
  ((97 <=? byte c) && (byte c <=? 122))%N.

(** The upper-case form of a lower-case ASCII letter, any other byte
    kept. *)
Definition upperByte (c : ascii) : ascii :=
  if isLower c then ascii_of_N (byte c - 32) else c.

(** [s] spells [name] up to the case of its ASCII letters: byte by byte,
    the byte of [name] or its upper-case form. *)
Fixpoint caseVariant (s name : string) : bool :=
  match s, name with
  | EmptyString, EmptyString => true
  | String c s', String d name' =>
      (Ascii.eqb c d || Ascii.eqb c (upperByte d)) && caseVariant s' name'
  | _, _ => false
  end.

(** Only lower-case ASCII letters. *)
Fixpoint allLower (s : string) : bool :=
  match s with
  | EmptyString => true
  | String c r => isLower c && allLower r
  end.

End GoStrings.

(** ** [main.go] *)

Module Dumper.

Import GoStrings.

(** [types.BackupOptions], the four fields [Run] fills in. *)
Record BackupOptions := {
  Compress : bool;
  BatchSize : Z;
  MaxWorkers : Z;
  Exclude : list string
}.

(** The package-level flag variables. *)
Record Flags := {
  dbType : string;
  connStr : string;
  outputFile : string;
  compress : bool;
  batchSize : Z;
  maxWorkers : Z;
  excludeTables : string
}.

(** The defaults [init] registers. *)
Definition defaultFlags : Flags :=
  {| dbType := ""; connStr := ""; outputFile := "backup.sql";
     compress := false; batchSize := 5000; maxWorkers := 5;
     excludeTables := "" |}.

(** [%d] *)
Definition fmt_d (n : Z) : string := NilEmpty.string_of_int (Z.to_int n).

(** [validTypes[k]]: a missing key reads as [false]. *)
Definition validTypes (k : string) : bool :=
  bool_decide (k = "postgres") || bool_decide (k = "mysql")
  || bool_decide (k = "mongodb").

Definition validateInputs (f : Flags) : option string :=
  if negb (validTypes (ToLower (dbType f))) then
    Some ("invalid database type: " +:+ dbType f
          +:+ " (must be postgres, mysql, or mongodb)")
  else if batchSize f <? 1 then
    Some ("batch-size must be at least 1, got " +:+ fmt_d (batchSize f))
  else if (maxWorkers f <? 1) || (maxWorkers f >? 50) then
    Some ("workers must be between 1 and 50, got " +:+ fmt_d (maxWorkers f))
  else if bool_decide (outputFile f = "") then
    Some "output file path cannot be empty"
  else None.

(** The database types [validateInputs] lets through. *)
Definition validDbType (s : string) : Prop :=
  ToLower s = "postgres" \/ ToLower s = "mysql" \/ ToLower s = "mongodb".

(** The loop body of [filterExcludeTables]: one piece of the split. *)
Definition appendTrimmed (result : list string) (table : string)
  : list string :=
  let trimmed := TrimSpace table in
  if bool_decide (trimmed = "") then result else result ++ [trimmed].

Definition filterExcludeTables (exclude : string) : list string :=
  if bool_decide (exclude = "") then []
  else foldl appendTrimmed [] (Split exclude ","%char).

(** What the process does that the outside can see, in order.
    [LogFatalf] is [log.Fatalf]: the message is logged and the process
    exits with status 1, so nothing follows it.  [CallDumpDatabase] is the
    call into the engine with its four arguments. *)
Inductive Event :=
| Print (s : string)
| PrintErr (s : string)
| Sleep (ms : Z)
| CallDumpDatabase (dbType connStr outputFile : string)
                   (opts : BackupOptions)
| LogFatalf (s : string)
| Exit (code : Z).

Definition nl : string := String "010"%char "".

Definition version : string := "v0.1.1".
Definition author : string := "OffbyteSecure".
Definition website : string := "https://offbytesecure.com".

Definition banner : list string :=
  [ "         ____                        ";
    "        |  __|                       ";
    "        | |__ _   _ _ __   ___ _ __  ";
    "        |  __| | | | '_ \ / __| '_ \ ";
    "        | |  | |_| | |_) | (__| |_) |";
    "        |_|   \__,_|_.__/ \___|_.__/ ";
    "                                     " ].

(** The options [Run] builds from the flags. *)
Definition optionsOf (f : Flags) : BackupOptions :=
  {| Compress := compress f;
     BatchSize := batchSize f;
     MaxWorkers := maxWorkers f;
     Exclude := filterExcludeTables (excludeTables f) |}.

(** The events that end the process. *)
Definition terminal (e : Event) : bool :=
  match e with LogFatalf _ | Exit _ => true | _ => false end.

Section Process.

(** The [color.New(...).SprintFunc()] closures: what they add depends on
    the terminal. *)
Variables infoColor successColor errorColor warnColor bannerColor
  : string -> string.

(** [dump_util.DumpDatabase], the engine: its returned error. *)
Variable DumpDatabase :
  string -> string -> string -> BackupOptions -> option string.

Definition printAnimatedBanner : list Event :=
  Print nl
  :: flat_map (fun line =>
       [Print (bannerColor line +:+ "          " +:+ nl); Sleep 100])
       banner
  ++ [ Print (infoColor "Info: " +:+ "Author: " +:+ author +:+ nl);
       Print (infoColor "Info: " +:+ "Website: " +:+ website +:+ nl);
       Print (infoColor "Info: " +:+ "Version: " +:+ version +:+ nl);
       Print nl ].

(** [rootCmd.Run] *)
Definition Run (f : Flags) : list Event :=
  match validateInputs f with
  | Some err => [LogFatalf (errorColor "Error:" +:+ " " +:+ err)]
  | None =>
      let opts := {| Compress := compress f;
                     BatchSize := batchSize f;
                     MaxWorkers := maxWorkers f;
                     Exclude := filterExcludeTables (excludeTables f) |} in
      Print (infoColor "Info:" +:+ " Starting database dump for "
             +:+ dbType f +:+ "..." +:+ nl)
      :: CallDumpDatabase (dbType f) (connStr f) (outputFile f) opts
      :: match DumpDatabase (dbType f) (connStr f) (outputFile f) opts with
         | Some err =>
             [LogFatalf (errorColor "Error:"
                         +:+ " Failed to dump database: " +:+ err)]
         | None =>
             [Print (successColor "Success:"
                     +:+ " Dump completed successfully: "
                     +:+ outputFile f +:+ nl)]
         end
  end.

(** [versionCmd.Run] *)
Definition versionRun : list Event :=
  [ Print (infoColor "Version:" +:+ " dumper version " +:+ version +:+ nl);
    Print (infoColor "Author:" +:+ " Author: " +:+ author +:+ nl);
    Print (infoColor "Website:" +:+ " Website: " +:+ website +:+ nl) ].

(** What [rootCmd.Execute] resolves the command line to: the root command
    with its flag variables set, the [version] subcommand, or no [Run] at
    all (help, or a usage error that [Execute] returns). *)
Inductive Invocation :=
| InvokeRoot (f : Flags)
| InvokeVersion
| InvokeNone (err : option string).

Definition Execute (i : Invocation) : list Event * option string :=
  match i with
  | InvokeRoot f => (Run f, None)
  | InvokeVersion => (versionRun, None)
  | InvokeNone err => ([], err)
  end.

(** The events of a trace up to the first one that ends the process. *)
Fixpoint untilExit (t : list Event) : list Event :=
  match t with
  | [] => []
  | LogFatalf s :: _ => [LogFatalf s]
  | Exit c :: _ => [Exit c]
  | e :: t' => e :: untilExit t'
  end.

Definition main (i : Invocation) : list Event :=
  untilExit
    (printAnimatedBanner
     ++ let '(t, err) := Execute i in
        t ++ match err with
             | Some e =>
                 [PrintErr (errorColor "Error:"
                            +:+ " Failed to execute command: " +:+ e
                            +:+ nl);
                  Exit 1]
             | None => []
             end).

Definition isCall (e : Event) : bool :=
  match e with CallDumpDatabase _ _ _ _ => true | _ => false end.

(** How often the trace enters the engine. *)
Definition calls (t : list Event) : nat := length (filter isCall t).

End Process.

(** Flags for the examples: every constraint met, only the database type
    left open; no colours; an engine that succeeds. *)
Definition sampleFlags (t : string) : Flags :=
  {| dbType := t; connStr := "host=db"; outputFile := "backup.sql";
     compress := true; batchSize := 5000; maxWorkers := 5;
     excludeTables := " users ,,logs" |}.

Definition noColor (s : string) : string := s.

Definition engineOK (_ _ _ : string) (_ : BackupOptions) : option string :=
  None.


(** The flags when only the two required ones are given: [--type] and
    [--conn], every other one at the default [init] registers. *)
Definition requiredOnly (t c : string) : Flags :=
  {| dbType := t; connStr := c; outputFile := outputFile defaultFlags;
     compress := compress defaultFlags; batchSize := batchSize defaultFlags;
     maxWorkers := maxWorkers defaultFlags;
     excludeTables := excludeTables defaultFlags |}.

(** The status the process exits with: 1 after [log.Fatalf] or
    [os.Exit(1)], 0 when [main] returns. *)
Definition exitStatus (t : list Event) : Z :=
  match last t with
  | Some (LogFatalf _) => 1
  | Some (Exit c) => c
  | _ => 0
  end.

(** The time the trace spends in [time.Sleep], in milliseconds. *)
Fixpoint sleepTotal (t : list Event) : Z :=
  match t with
  | [] => 0
  | Sleep ms :: t' => ms + sleepTotal t'
  | _ :: t' => sleepTotal t'
  end.

(** An exclusion entry as the engine may get it: not empty, no comma, no
    white space at either end. *)
Definition cleanEntry (t : string) : Prop :=
  t <> "" /\ hasByte ","%char t = false
  /\ headSpace t = false /\ lastSpace t = false.

End Dumper.

(** ** The dump engine behind [dump_util.DumpDatabase]

    The engine's code is not part of [main.go]; every definition of this
    module follows the design document. *)

Module Engine.

(** [R] records in batches of [n]: the number of batches, [R / n] rounded
    up. *)
Definition ceilDiv (R n : nat) : nat := (R + n - 1) / n.

(** Modelled from the spec: the data model of section 3; the engine's
    types are missing from the sources.  [duration] is wall-clock time and
    is left out of [DumpResult]. *)
Inductive UnitKind := Table | Collection.

Record DumpableUnit := {
  name : string;
  kind : UnitKind;
  structureDescriptor : string
}.

Record BackupOptions := {
  compress : bool;
  batchSize : positive;
  maxWorkers : nat;
  exclude : gset string
}.


Record SerializedFragment := {
  unitName : string;
  fragmentIndex : nat;
  payload : string
}.

Record DumpResult := {
  unitsProcessed : nat;
  unitsFailed : gset string;
  bytesWritten : nat
}.


Section Backend.

(** A record of the backend: a mapping from field name to nullable
    value, whose shape the design leaves to the backend. *)
Variable Row : Type.

(** Modelled from the spec: the [Batch] of section 3, missing from the
    sources. *)
Record Batch := {
  unit : DumpableUnit;
  rows : list Row;
  sequenceIndex : nat
}.

(** The backend's rendering of one batch; [None] is an unrepresentable
    value, a [SerializationError]. *)
Variable encode : Batch -> option string.

(** The unit-open and unit-close markers of the backend. *)
Variables openMarker closeMarker : string -> string.

(** Modelled from the spec: the live database behind the Source Adapter
    (4.1), which is missing from the sources: whether [Connect] and the
    metadata read succeed, the units with their records in cursor order,
    which units refuse a cursor, and the fetch call at which a unit's
    read breaks. *)
Record Source := {
  connectOK : bool;
  discoveryOK : bool;
  units : list DumpableUnit;
  records : string -> list Row;
  openFails : string -> bool;
  readFailsAt : string -> option nat
}.

(** Modelled from the spec: a unit cursor (4.1), missing from the sources:
    the records not yet fetched, the number of fetch calls so far, and the
    call at which the read breaks. *)
Record Cursor := {
  pending : list Row;
  fetches : nat;
  failAt : option nat
}.

(** Modelled from the spec: what [FetchNextBatch] returns (4.1). *)
Inductive Fetch :=
| Fetched (rs : list Row) (c : Cursor)
| EndOfUnit
| ReadError.

(** Modelled from the spec: [ListUnits] (4.1), missing from the sources:
    the dumpable units whose name is not in the exclusion set. *)
Definition ListUnits (src : Source) (excl : gset string)
  : list DumpableUnit :=
  filter (fun u => name u ∉ excl) (units src).

(** Modelled from the spec: [OpenUnitCursor] (4.1), missing from the
    sources; [None] is [UnitOpenError]. *)
Definition OpenUnitCursor (src : Source) (u : DumpableUnit)
  : option Cursor :=
  if openFails src (name u) then None
  else Some {| pending := records src (name u); fetches := 0;
               failAt := readFailsAt src (name u) |}.

(** Modelled from the spec: [FetchNextBatch] (4.1), missing from the
    sources: the next batch of at most [batchSize] records in cursor
    order, or the end-of-unit signal, or [ReadError]. *)
Definition FetchNextBatch (c : Cursor) (bs : positive) : Fetch :=
  if bool_decide (failAt c = Some (fetches c)) then ReadError
  else match pending c with
       | [] => EndOfUnit
       | _ => Fetched (take (Pos.to_nat bs) (pending c))
                {| pending := drop (Pos.to_nat bs) (pending c);
                   fetches := S (fetches c);
                   failAt := failAt c |}
       end.

(** How a unit's read ended. *)
Inductive ReadEnd := Completed | Broken.

(** Modelled from the spec: the Batch Reader (4.2), missing from the
    sources: [FetchNextBatch] called until end-of-unit, the batches
    numbered from [idx] upwards.  Each round of the loop spends one unit
    of [fuel]; [readUnit] below supplies enough of it. *)
Fixpoint readLoop (fuel : nat) (u : DumpableUnit) (bs : positive)
  (c : Cursor) (idx : nat) : option (list Batch * ReadEnd) :=
  match fuel with
  | O => None
  | S fuel' =>
      match FetchNextBatch c bs with
      | ReadError => Some ([], Broken)
      | EndOfUnit => Some ([], Completed)
      | Fetched rs c' =>
          match readLoop fuel' u bs c' (S idx) with
          | Some (bs', e) =>
              Some ({| unit := u; rows := rs; sequenceIndex := idx |}
                    :: bs', e)
          | None => None
          end
      end
  end.

Definition readUnit (u : DumpableUnit) (bs : positive) (c : Cursor)
  : option (list Batch * ReadEnd) :=
  readLoop (S (length (pending c))) u bs c 0.

(** Modelled from the spec: the Serializer (4.3), missing from the
    sources: a batch to its fragment, tagged with the batch's unit and
    index. *)
Definition Serializer (b : Batch) : option SerializedFragment :=
  match encode b with
  | Some p => Some {| unitName := name (unit b);
                      fragmentIndex := sequenceIndex b;
                      payload := p |}
  | None => None
  end.

(** Modelled from the spec: what a worker tells the Output Writer (4.4,
    4.5), missing from the sources: a fragment to buffer, the unit is
    complete, the unit failed and its buffer is to be discarded. *)
Inductive Msg :=
| Emit (f : SerializedFragment)
| Complete (n : string)
| Discard (n : string).

(** Modelled from the spec: the Serializer over a unit's batches (4.3,
    4.4), missing from the sources: the fragments of the batches up to the
    first one that does not serialize; [true] when all of them did. *)
Fixpoint serializeAll (bs : list Batch)
  : list SerializedFragment * bool :=
  match bs with
  | [] => ([], true)
  | b :: bs' =>
      match Serializer b with
      | None => ([], false)
      | Some f => let '(fs, ok) := serializeAll bs' in (f :: fs, ok)
      end
  end.

(** Modelled from the spec: one unit's pipeline inside a worker (4.4),
    missing from the sources: Batch Reader, Serializer, emit to the
    Writer, batch after batch; a unit that fails ends with the order to
    discard what was buffered for it. *)
Definition unitWork (src : Source) (o : BackupOptions) (u : DumpableUnit)
  : list Msg :=
  match OpenUnitCursor src u with
  | None => [Discard (name u)]
  | Some c =>
      match readUnit u (batchSize o) c with
      | None => [Discard (name u)]
      | Some (bs, e) =>
          let '(fs, ok) := serializeAll bs in
          (Emit <$> fs)
          ++ [match e with
              | Completed => if ok then Complete (name u)
                             else Discard (name u)
              | Broken => Discard (name u)
              end]
      end
  end.

(** Modelled from the spec: the output file layout of section 6, missing
    from the sources: per dumped unit an open marker, its fragments and a
    close marker, in file order. *)
Inductive Entry :=
| UnitOpen (n : string)
| Fragment (f : SerializedFragment)
| UnitClose (n : string).

Definition entryUnit (e : Entry) : string :=
  match e with
  | UnitOpen n => n
  | Fragment f => unitName f
  | UnitClose n => n
  end.

Definition entryBytes (e : Entry) : string :=
  match e with
  | UnitOpen n => openMarker n
  | Fragment f => payload f
  | UnitClose n => closeMarker n
  end.

(** The bytes of the uncompressed output file. *)
Definition fileBytes (es : list Entry) : string :=
  foldr (fun e acc => entryBytes e +:+ acc) "" es.

(** Modelled from the spec: the Output Writer (4.5), missing from the
    sources: a unit's fragments are buffered as its worker emits them;
    a completed unit is written in one critical section, its markers
    around its fragments; a failed unit's buffer is dropped. *)
Record Writer := {
  file : list Entry;
  buffered : gmap string (list SerializedFragment)
}.

Definition bufferOf (w : Writer) (n : string)
  : list SerializedFragment := default [] (buffered w !! n).

Definition unitEntries (n : string) (fs : list SerializedFragment)
  : list Entry :=
  UnitOpen n :: (Fragment <$> fs) ++ [UnitClose n].

(** Modelled from the spec: the Writer's reaction to a worker's message
    (4.5), missing from the sources. *)
Definition deliver (w : Writer) (m : Msg) : Writer :=
  match m with
  | Emit f =>
      {| file := file w;
         buffered := <[unitName f := bufferOf w (unitName f) ++ [f]]>
                       (buffered w) |}
  | Complete n =>
      {| file := file w ++ unitEntries n (bufferOf w n);
         buffered := delete n (buffered w) |}
  | Discard n =>
      {| file := file w; buffered := delete n (buffered w) |}
  end.

(** Modelled from the spec: a busy worker (4.4), missing from the sources:
    the unit it owns and what it still has to tell the Writer. *)
Record Worker := {
  owned : string;
  todo : list Msg
}.

(** Modelled from the spec: the Worker Pool (4.4, 5), missing from the
    sources: the queue of unassigned units, the workers with a unit in
    flight, the Writer, the names of the units claimed so far and the
    result under construction. *)
Record Pool := {
  queue : list DumpableUnit;
  running : list Worker;
  writer : Writer;
  attempted : list string;
  result : DumpResult
}.

Definition entriesBytes (es : list Entry) : nat :=
  String.length (fileBytes es).

(** Modelled from the spec: a free worker claims the next unassigned unit
    (4.4), missing from the sources; at most [maxWorkers] units are in
    flight. *)
Definition claim (src : Source) (o : BackupOptions) (p : Pool)
  : option Pool :=
  match queue p with
  | [] => None
  | u :: q =>
      if bool_decide (length (running p) < maxWorkers o)%nat then
        Some {| queue := q;
                running := running p
                           ++ [{| owned := name u;
                                  todo := unitWork src o u |}];
                writer := writer p;
                attempted := attempted p ++ [name u];
                result := result p |}
      else None
  end.

(** Modelled from the spec: the [i]-th busy worker does its next step
    (4.4), missing from the sources: it hands its next message to the
    Writer, and with its last one it reports the unit as processed or as
    failed. *)
Definition advance (i : nat) (p : Pool) : option Pool :=
  match running p !! i with
  | None => None
  | Some w =>
      match todo w with
      | [] => None
      | m :: ms =>
          let wr := deliver (writer p) m in
          let r := result p in
          Some
            match m with
            | Emit _ =>
                {| queue := queue p;
                   running := <[i := {| owned := owned w; todo := ms |}]>
                                (running p);
                   writer := wr;
                   attempted := attempted p;
                   result := r |}
            | Complete n =>
                {| queue := queue p;
                   running := delete i (running p);
                   writer := wr;
                   attempted := attempted p;
                   result :=
                     {| unitsProcessed := S (unitsProcessed r);
                        unitsFailed := unitsFailed r;
                        bytesWritten :=
                          bytesWritten r
                          + entriesBytes
                              (unitEntries n (bufferOf (writer p) n)) |} |}
            | Discard n =>
                {| queue := queue p;
                   running := delete i (running p);
                   writer := wr;
                   attempted := attempted p;
                   result :=
                     {| unitsProcessed := unitsProcessed r;
                        unitsFailed := unitsFailed r ∪ {[n]};
                        bytesWritten := bytesWritten r |} |}
            end
      end
  end.

(** Modelled from the spec: one step of the pool (4.4, 5), missing from the
    sources: [None] picks the claim, [Some i] the [i]-th busy worker.
    Which one happens next is not fixed by the design. *)
Definition poolStep (src : Source) (o : BackupOptions)
  (choice : option nat) (p : Pool) : option Pool :=
  match choice with
  | None => claim src o p
  | Some i => advance i p
  end.

(** Modelled from the spec: the pool's [Run] (4.4), missing from the
    sources, driven by a schedule, one choice per step; [None] when a
    choice names a step that is not enabled. *)
Fixpoint runSchedule (src : Source) (o : BackupOptions)
  (sched : list (option nat)) (p : Pool) : option Pool :=
  match sched with
  | [] => Some p
  | c :: cs =>
      match poolStep src o c p with
      | Some q => runSchedule src o cs q
      | None => None
      end
  end.

Definition emptyWriter : Writer := {| file := []; buffered := ∅ |}.

Definition startPool (us : list DumpableUnit) : Pool :=
  {| queue := us; running := []; writer := emptyWriter; attempted := [];
     result := {| unitsProcessed := 0; unitsFailed := ∅;
                  bytesWritten := 0 |} |}.

(** Every unit has been attempted. *)
Definition finished (p : Pool) : bool :=
  bool_decide (length (queue p) = 0%nat)
  && bool_decide (length (running p) = 0%nat).

(** The schedule of a single worker: each unit is claimed and run to its
    end before the next one. *)
Definition sequentialSchedule (src : Source) (o : BackupOptions)
  (us : list DumpableUnit) : list (option nat) :=
  flat_map (fun u => None :: replicate (length (unitWork src o u)) (Some 0%nat))
           us.

(** Modelled from the spec: the Orchestrator's states and the fatal
    errors of section 7 that this model raises. *)
Inductive State :=
| Idle | Connected | Discovering | Dumping | Finalizing | Done | Failed.

Inductive FatalError := ConnectionError | DiscoveryError.

(** Modelled from the spec: what a run leaves behind (4.6, 6), missing from
    the sources: the states the Orchestrator went through and the one it
    ended in, the result or the fatal error, the output file, and the
    units the pool claimed. *)
Record Run := {
  path : list State;
  state : State;
  outcome : FatalError + DumpResult;
  output : list Entry;
  claimed : list string
}.

Definition finishRun (p : Pool) : Run :=
  {| path := [Idle; Connected; Discovering; Dumping; Finalizing; Done];
     state := Done; outcome := inr (result p);
     output := file (writer p); claimed := attempted p |}.

Definition failRun (e : FatalError) : Run :=
  {| path := match e with
             | ConnectionError => [Idle; Failed]
             | DiscoveryError => [Idle; Connected; Failed]
             end;
     state := Failed; outcome := inl e; output := []; claimed := [] |}.

(** Modelled from the spec: the Orchestrator (4.6), missing from the
    sources: connect, discover, run the pool over the units left after
    exclusion, finalize.  The sink is taken to accept every write.  The
    result is [None] when [sched] is not a complete schedule of the
    pool: a choice is not enabled, or units are left over. *)
Definition dump (src : Source) (o : BackupOptions)
  (sched : list (option nat)) : option Run :=
  if negb (connectOK src) then Some (failRun ConnectionError)
  else if negb (discoveryOK src) then Some (failRun DiscoveryError)
  else match runSchedule src o sched
               (startPool (ListUnits src (exclude o))) with
       | Some p => if finished p then Some (finishRun p) else None
       | None => None
       end.

(** The run of a single worker. *)
Definition dumpSequential (src : Source) (o : BackupOptions)
  : option Run :=
  dump src o (sequentialSchedule src o (ListUnits src (exclude o))).

(** The entries of the file that belong to unit [n]. *)
Definition entriesOf (n : string) (es : list Entry) : list Entry :=
  filter (fun e => entryUnit e = n) es.

Definition fragmentsOf (n : string) (es : list Entry)
  : list SerializedFragment :=
  omap (fun e => match e with
                 | Fragment f =>
                     if bool_decide (unitName f = n) then Some f else None
                 | _ => None
                 end) es.

(** A unit succeeds when its pipeline ends with [Complete]. *)
Definition succeeds (src : Source) (o : BackupOptions) (u : DumpableUnit)
  : bool :=
  match last (unitWork src o u) with
  | Some (Complete _) => true
  | _ => false
  end.



(** The fragments among a worker's messages. *)
Definition emitted (ms : list Msg) : list SerializedFragment :=
  omap (fun m => match m with Emit f => Some f | _ => None end) ms.

(** What a finished run holds for a unit: its markers around all its
    fragments when it succeeded, nothing when it failed. *)
Definition unitOutput (src : Source) (o : BackupOptions)
  (u : DumpableUnit) : list Entry :=
  if succeeds src o u
  then unitEntries (name u) (emitted (unitWork src o u))
  else [].

(** The steps a pool still has to take. *)
Definition stepsLeft (src : Source) (o : BackupOptions) (p : Pool) : nat :=
  sum_list_with (fun u => S (length (unitWork src o u))) (queue p)
  + sum_list_with (fun w => length (todo w)) (running p).

(** Where a unit of the run stands in a pool state: still queued, with
    nothing of it anywhere; or owned by a busy worker, the fragments of
    the messages already delivered sitting in the Writer's buffer; or
    done, its output in the file or its name among the failed units. *)
Definition unitInv (src : Source) (o : BackupOptions) (p : Pool)
  (u : DumpableUnit) : Prop :=
  let n := name u in
  let inFile := entriesOf n (file (writer p)) in
  let inBuffer := bufferOf (writer p) n in
  let failed := n ∈ unitsFailed (result p) in
  (n ∈ (name <$> queue p) /\ (n ∉ (owned <$> running p))
   /\ inFile = [] /\ inBuffer = [] /\ ~ failed)
  \/ ((n ∉ (name <$> queue p))
      /\ exists w fs,
           w ∈ running p /\ owned w = n
           /\ unitWork src o u = (Emit <$> fs) ++ todo w
           /\ todo w <> []
           /\ inFile = [] /\ inBuffer = fs /\ ~ failed)
  \/ ((n ∉ (name <$> queue p)) /\ (n ∉ (owned <$> running p))
      /\ inFile = unitOutput src o u /\ inBuffer = []
      /\ (failed <-> succeeds src o u = false)).

(** The invariant of the pool over the units [us] of a run. *)
Definition poolInv (src : Source) (o : BackupOptions)
  (us : list DumpableUnit) (p : Pool) : Prop :=
  (exists cl, us = cl ++ queue p /\ attempted p = name <$> cl)
  /\ NoDup (owned <$> running p)
  /\ (forall w, w ∈ running p -> exists u, u ∈ us /\ name u = owned w)
  /\ (forall u, u ∈ us -> unitInv src o p u)
  /\ (forall n, n ∉ (name <$> us) ->
        entriesOf n (file (writer p)) = []
        /\ n ∉ unitsFailed (result p)).

End Backend.

(** A sample backend: records are single bytes, a batch is rendered as
    the string of its bytes, and the markers are tags around the unit's
    name. *)
Definition byteEncode (b : Batch ascii) : option string :=
  Some (string_of_list_ascii (rows ascii b)).


Definition tagOpen (n : string) : string := "<" +:+ n +:+ ">".
Definition tagClose (n : string) : string := "</" +:+ n +:+ ">".

Definition table (n : string) : DumpableUnit :=
  {| name := n; kind := Table; structureDescriptor := "" |}.

(** The database of the scenarios of section 8: [A] with 10 records, [B]
    with none, [C] with 5; the units named in [broken] refuse a cursor. *)
Definition sampleSource (broken : list string) : Source ascii :=
  {| connectOK := true;
     discoveryOK := true;
     units := [table "A"; table "B"; table "C"];
     records := fun n =>
       if bool_decide (n = "A") then list_ascii_of_string "0123456789"
       else if bool_decide (n = "C") then list_ascii_of_string "abcde"
       else [];
     openFails := fun n => bool_decide (n ∈ broken);
     readFailsAt := fun _ => None |}.

Definition sampleOptions (excl : list string) : BackupOptions :=
  {| compress := false; batchSize := 4; maxWorkers := 2;
     exclude := list_to_set excl |}.




End Engine.

(** * Properties *)

Module GoStringsFacts.

Import GoStrings.

Lemma sapp_nil_l (s : string) : "" +:+ s = s.
Proof. reflexivity. Qed.

Lemma sapp_cons (c : ascii) (s t : string) :
  String c s +:+ t = String c (s +:+ t).
Proof. reflexivity. Qed.

Lemma sapp_nil_r (s : string) : s +:+ "" = s.
Proof. induction s as [|c s IH]; [done | by rewrite sapp_cons, IH]. Qed.

Lemma sapp_assoc (a b c : string) : (a +:+ b) +:+ c = a +:+ (b +:+ c).
Proof. induction a as [|x a IH]; [done | by rewrite !sapp_cons, IH]. Qed.

Lemma srev_app_unfold (s t : string) :
  String.rev_app s t = String.rev s +:+ t.
Proof.
  unfold String.rev. revert t.
  induction s as [|c s IH]; intros t; simpl; [done|].
  rewrite (IH (String c "")), IH, sapp_assoc. done.
Qed.

Lemma srev_cons (c : ascii) (s : string) :
  String.rev (String c s) = String.rev s +:+ String c "".
Proof. unfold String.rev at 1. simpl. apply srev_app_unfold. Qed.

Lemma srev_app (a b : string) :
  String.rev (a +:+ b) = String.rev b +:+ String.rev a.
Proof.
  induction a as [|c a IH].
  - by rewrite sapp_nil_l, sapp_nil_r.
  - by rewrite sapp_cons, !srev_cons, IH, sapp_assoc.
Qed.

Lemma srev_involutive (s : string) : String.rev (String.rev s) = s.
Proof.
  induction s as [|c s IH]; [done|].
  by rewrite srev_cons, srev_app, IH.
Qed.

Lemma byte_inj (c : ascii) (n : N) : byte c = n -> c = ascii_of_N n.
Proof. intros <-. unfold byte. by rewrite ascii_N_embedding. Qed.

Lemma byte_lt (c : ascii) : (byte c < 256)%N.
Proof. apply N_ascii_bounded. Qed.

Ltac bools :=
  repeat match goal with
    | H : _ && _ = true |- _ => apply andb_true_iff in H as [? ?]
    | H : _ || _ = true |- _ => apply orb_true_iff in H as [?|?]
    | H : (_ <=? _)%N = true |- _ => apply N.leb_le in H
    | H : (_ =? _)%N = true |- _ => apply N.eqb_eq in H
    end.

Ltac fix_byte :=
  repeat match goal with
    | H : byte ?c = _ |- _ => apply byte_inj in H; subst c
    end.

Lemma asciiSpace_rune (c : ascii) :
  asciiSpace c = true ->
  IsSpace (byte c) = true /\ EncodeRune (byte c) = String c "".
Proof.
  unfold asciiSpace. intros H. bools.
  - assert (byte c = 9 \/ byte c = 10 \/ byte c = 11 \/ byte c = 12
            \/ byte c = 13)%N as Hc by lia.
    destruct Hc as [Hc|[Hc|[Hc|[Hc|Hc]]]]; fix_byte; by vm_compute.
  - fix_byte. by vm_compute.
Qed.

Lemma space2_rune (c0 c1 : ascii) :
  space2 c0 c1 = true ->
  IsSpace (rune2 c0 c1) = true
  /\ EncodeRune (rune2 c0 c1) = String c0 (String c1 "").
Proof.
  unfold space2. intros H. bools; fix_byte; by vm_compute.
Qed.

Lemma space3_rune (c0 c1 c2 : ascii) :
  space3 c0 c1 c2 = true ->
  IsSpace (rune3 c0 c1 c2) = true
  /\ EncodeRune (rune3 c0 c1 c2) = String c0 (String c1 (String c2 "")).
Proof.
  unfold space3. intros H. bools; fix_byte; try by vm_compute.
  assert (byte c2 = 128 \/ byte c2 = 129 \/ byte c2 = 130 \/ byte c2 = 131
          \/ byte c2 = 132 \/ byte c2 = 133 \/ byte c2 = 134
          \/ byte c2 = 135 \/ byte c2 = 136 \/ byte c2 = 137
          \/ byte c2 = 138)%N as Hc by lia.
  repeat (destruct Hc as [Hc|Hc]; [fix_byte; by vm_compute|]).
  fix_byte; by vm_compute.
Qed.

(** The white-space runes, one by one. *)
Lemma IsSpace_cases (r : N) :
  IsSpace r = true ->
  r ∈ [9; 10; 11; 12; 13; 32; 133; 160; 5760; 8192; 8193; 8194; 8195;
       8196; 8197; 8198; 8199; 8200; 8201; 8202; 8232; 8233; 8239; 8287;
       12288]%N.
Proof.
  unfold IsSpace. intros H. bools; subst;
    try (apply list_elem_of_In; simpl; tauto).
  - assert (r = 9 \/ r = 10 \/ r = 11 \/ r = 12 \/ r = 13)%N as Hr by lia.
    apply list_elem_of_In; simpl. intuition auto.
  - assert (r = 8192 \/ r = 8193 \/ r = 8194 \/ r = 8195 \/ r = 8196
            \/ r = 8197 \/ r = 8198 \/ r = 8199 \/ r = 8200 \/ r = 8201
            \/ r = 8202)%N as Hr by lia.
    apply list_elem_of_In; simpl. intuition auto.
Qed.

Lemma IsSpace_encoding (r : N) :
  IsSpace r = true -> SpaceBytes (EncodeRune r).
Proof.
  intros H%IsSpace_cases.
  repeat (apply elem_of_cons in H as [->|H];
          [vm_compute;
           first [ by apply SpaceBytes1 | by apply SpaceBytes2
                 | by apply SpaceBytes3 ] |]).
  by apply elem_of_nil in H.
Qed.

Lemma SpaceBytes_rune (w : string) :
  SpaceBytes w -> exists r, IsSpace r = true /\ EncodeRune r = w.
Proof.
  intros [c H|c0 c1 H|c0 c1 c2 H].
  - exists (byte c). by apply asciiSpace_rune.
  - exists (rune2 c0 c1). by apply space2_rune.
  - exists (rune3 c0 c1 c2). by apply space3_rune.
Qed.

Lemma Spaces_bytes (w s : string) :
  SpaceBytes w -> Spaces s -> Spaces (w +:+ s).
Proof.
  intros (r & Hr & <-)%SpaceBytes_rune Hs. by constructor.
Qed.

Lemma Spaces_app (a b : string) : Spaces a -> Spaces b -> Spaces (a +:+ b).
Proof.
  induction 1 as [|r s Hr Hs IH]; intros Hb; [done|].
  rewrite sapp_assoc. constructor; auto.
Qed.

Lemma Spaces_single (w : string) : SpaceBytes w -> Spaces w.
Proof.
  intros H. rewrite <- (sapp_nil_r w).
  apply Spaces_bytes; [done | constructor].
Qed.

(** The two- and three-byte patterns start with a byte that is neither
    ASCII white space nor the start of a shorter pattern. *)
Lemma space2_head (c0 c1 : ascii) :
  space2 c0 c1 = true -> asciiSpace c0 = false.
Proof. unfold space2. intros H. bools; fix_byte; done. Qed.

Lemma space3_head (c0 c1 c2 d : ascii) :
  space3 c0 c1 c2 = true -> asciiSpace c0 = false /\ space2 c0 d = false.
Proof.
  unfold space3, space2. intros H.
  assert (byte c0 = 225 \/ byte c0 = 226 \/ byte c0 = 227)%N as Hc
    by (bools; auto).
  destruct Hc as [Hc|[Hc|Hc]]; apply byte_inj in Hc; subst c0; done.
Qed.

Lemma trimLeft_bytes (w s : string) :
  SpaceBytes w -> trimLeft (w +:+ s) = trimLeft s.
Proof.
  intros [c H|c0 c1 H|c0 c1 c2 H]; rewrite ?sapp_cons, sapp_nil_l; simpl.
  - by rewrite H.
  - by rewrite (space2_head _ _ H), H.
  - destruct (space3_head _ _ _ c1 H) as [-> ->]. by rewrite H.
Qed.

Lemma trimLeft_Spaces (s : string) : Spaces s -> trimLeft s = "".
Proof.
  induction 1 as [|r s Hr Hs IH]; [done|].
  rewrite trimLeft_bytes; [done | by apply IsSpace_encoding].
Qed.

Lemma trimLeft_spec (s : string) :
  exists l, s = l +:+ trimLeft s /\ Spaces l
            /\ headSpace (trimLeft s) = false.
Proof.
  assert (forall n s, (String.length s < n)%nat ->
            exists l, s = l +:+ trimLeft s /\ Spaces l
                      /\ headSpace (trimLeft s) = false) as H;
    [| by apply (H (S (String.length s))); lia].
  clear s. induction n as [|n IH]; intros s Hn; [lia|].
  destruct s as [|c0 r0]; [by exists ""; repeat split; constructor|].
  simpl. destruct (asciiSpace c0) eqn:H0.
  { destruct (IH r0) as (l & Hl & Hs & Hh); [simpl in Hn; lia|].
    exists (String c0 l). rewrite sapp_cons, <- Hl. split; [done|].
    split; [|done]. apply (Spaces_bytes (String c0 "")); [|done].
    by constructor. }
  destruct r0 as [|c1 r1].
  { exists "". repeat split; [constructor|]. simpl. by rewrite H0. }
  destruct (space2 c0 c1) eqn:H1.
  { destruct (IH r1) as (l & Hl & Hs & Hh); [simpl in Hn; lia|].
    exists (String c0 (String c1 l)). rewrite !sapp_cons, <- Hl.
    split; [done|]. split; [|done].
    apply (Spaces_bytes (String c0 (String c1 ""))); [|done].
    by constructor. }
  destruct r1 as [|c2 r2].
  { exists "". repeat split; [constructor|]. simpl. by rewrite H0, H1. }
  destruct (space3 c0 c1 c2) eqn:H2.
  { destruct (IH r2) as (l & Hl & Hs & Hh); [simpl in Hn; lia|].
    exists (String c0 (String c1 (String c2 l))). rewrite !sapp_cons, <- Hl.
    split; [done|]. split; [|done].
    apply (Spaces_bytes (String c0 (String c1 (String c2 "")))); [|done].
    by constructor. }
  exists "". repeat split; [constructor|]. simpl. by rewrite H0, H1, H2.
Qed.

Lemma trimLeftRev_spec (s : string) :
  exists l, s = l +:+ trimLeftRev s /\ Spaces (String.rev l)
            /\ headSpaceRev (trimLeftRev s) = false.
Proof.
  assert (forall n s, (String.length s < n)%nat ->
            exists l, s = l +:+ trimLeftRev s /\ Spaces (String.rev l)
                      /\ headSpaceRev (trimLeftRev s) = false) as H;
    [| by apply (H (S (String.length s))); lia].
  clear s. induction n as [|n IH]; intros s Hn; [lia|].
  destruct s as [|c0 r0]; [by exists ""; repeat split; constructor|].
  simpl. destruct (asciiSpace c0) eqn:H0.
  { destruct (IH r0) as (l & Hl & Hs & Hh); [simpl in Hn; lia|].
    exists (String c0 l). rewrite sapp_cons, <- Hl. split; [done|].
    split; [|done]. rewrite srev_cons.
    apply Spaces_app; [done|]. apply Spaces_single. by constructor. }
  destruct r0 as [|c1 r1].
  { exists "". repeat split; [constructor|]. simpl. by rewrite H0. }
  destruct (space2 c1 c0) eqn:H1.
  { destruct (IH r1) as (l & Hl & Hs & Hh); [simpl in Hn; lia|].
    exists (String c0 (String c1 l)). rewrite !sapp_cons, <- Hl.
    split; [done|]. split; [|done]. rewrite !srev_cons, sapp_assoc.
    apply Spaces_app; [done|]. apply Spaces_single.
    rewrite sapp_cons, sapp_nil_l. by constructor. }
  destruct r1 as [|c2 r2].
  { exists "". repeat split; [constructor|]. simpl. by rewrite H0, H1. }
  destruct (space3 c2 c1 c0) eqn:H2.
  { destruct (IH r2) as (l & Hl & Hs & Hh); [simpl in Hn; lia|].
    exists (String c0 (String c1 (String c2 l))). rewrite !sapp_cons, <- Hl.
    split; [done|]. split; [|done]. rewrite !srev_cons, !sapp_assoc.
    apply Spaces_app; [done|]. apply Spaces_single.
    rewrite !sapp_cons, !sapp_nil_l. by constructor. }
  exists "". repeat split; [constructor|]. simpl. by rewrite H0, H1, H2.
Qed.

Lemma headSpace_prefix (a b : string) :
  headSpace a = true -> headSpace (a +:+ b) = true.
Proof.
  destruct a as [|c0 [|c1 [|c2 a]]]; [done|..];
    rewrite ?sapp_cons, ?sapp_nil_l; simpl; intros H.
  - rewrite orb_false_r in H. by rewrite H.
  - rewrite orb_false_r in H. apply orb_true_iff in H as [->|H]; [done|].
    rewrite H. destruct b; by rewrite ?orb_true_r.
  - apply orb_true_iff in H as [->|H]; [done|].
    apply orb_true_iff in H as [->| ->]; by rewrite ?orb_true_r.
Qed.

(** What [TrimSpace] returns: the argument without a run of white-space
    runes at each end, and with no white-space rune left at either end. *)
Lemma TrimSpace_spec (s : string) :
  exists l r, s = l +:+ TrimSpace s +:+ r /\ Spaces l /\ Spaces r
              /\ headSpace (TrimSpace s) = false
              /\ lastSpace (TrimSpace s) = false.
Proof.
  destruct (trimLeft_spec s) as (l & Hl & Hsl & Hh).
  destruct (trimLeftRev_spec (String.rev (trimLeft s)))
    as (r & Hr & Hsr & Hhr).
  assert (trimLeft s = TrimSpace s +:+ String.rev r) as Hu.
  { rewrite <- (srev_involutive (trimLeft s)), Hr at 1.
    by rewrite srev_app. }
  exists l, (String.rev r). repeat split; try done.
  - by rewrite <- Hu.
  - destruct (headSpace (TrimSpace s)) eqn:E; [|done].
    apply (headSpace_prefix _ (String.rev r)) in E.
    rewrite <- Hu in E. congruence.
  - unfold lastSpace, TrimSpace, trimRight. by rewrite srev_involutive.
Qed.

Lemma TrimSpace_empty (s : string) : TrimSpace s = "" <-> Spaces s.
Proof.
  split.
  - intros H. destruct (TrimSpace_spec s) as (l & r & Hs & Hl & Hr & _).
    rewrite H, sapp_nil_l in Hs. rewrite Hs. by apply Spaces_app.
  - intros H. unfold TrimSpace. by rewrite trimLeft_Spaces.
Qed.

Lemma Split_cons (s : string) (sep : ascii) :
  exists p ps, Split s sep = p :: ps.
Proof.
  destruct s as [|c r]; simpl; [by eauto|].
  destruct (Ascii.eqb c sep); [by eauto|].
  destruct (Split r sep); eauto.
Qed.

(** Joining the pieces with the separator gives the string back. *)
Lemma Split_concat (s : string) (sep : ascii) :
  String.concat (String sep "") (Split s sep) = s.
Proof.
  induction s as [|c r IH]; [done|]. simpl.
  destruct (Ascii.eqb_spec c sep) as [->|Hne].
  - destruct (Split_cons r sep) as (p & ps & E).
    rewrite E in IH |- *. simpl in IH |- *. by rewrite IH.
  - destruct (Split_cons r sep) as (p & ps & E).
    rewrite E in IH |- *. destruct ps as [|q ps].
    + simpl in IH |- *. by rewrite IH.
    + change (String c (p +:+ String sep "" +:+
                        String.concat (String sep "") (q :: ps))
              = String c r).
      f_equal. exact IH.
Qed.

(** No piece holds the separator. *)
Lemma Split_no_sep (s : string) (sep : ascii) :
  Forall (fun p => hasByte sep p = false) (Split s sep).
Proof.
  induction s as [|c r IH]; simpl; [by repeat constructor|].
  destruct (Ascii.eqb c sep) eqn:E; [by constructor|].
  destruct (Split r sep) as [|p ps]; [by repeat constructor; simpl; rewrite E|].
  inversion IH; subst. constructor; [|done]. simpl. by rewrite E.
Qed.

End GoStringsFacts.

Module DumperFacts.

Import GoStrings GoStringsFacts Dumper.

Lemma foldl_appendTrimmed (acc : list string) (ps : list string) :
  foldl appendTrimmed acc ps
  = acc ++ filter (fun t => t <> "") (TrimSpace <$> ps).
Proof.
  revert acc. induction ps as [|p ps IH]; intros acc; simpl.
  - by rewrite app_nil_r.
  - rewrite IH. unfold appendTrimmed. rewrite filter_cons.
    case_bool_decide as E; case_decide as E'; try done.
    by rewrite <- (assoc_L (++)).
Qed.

Lemma filterExcludeTables_eq (s : string) :
  filterExcludeTables s
  = filter (fun t => t <> "") (TrimSpace <$> Split s ","%char).
Proof.
  unfold filterExcludeTables. case_bool_decide as E.
  - by subst.
  - apply foldl_appendTrimmed.
Qed.

Lemma validTypes_spec (s : string) :
  validTypes (ToLower s) = true <-> validDbType s.
Proof.
  unfold validTypes, validDbType.
  rewrite !orb_true_iff, !bool_decide_eq_true. tauto.
Qed.

Lemma validDbType_dec (s : string) : validDbType s \/ ~ validDbType s.
Proof.
  rewrite <- validTypes_spec. destruct (validTypes (ToLower s)); auto.
Qed.

(** [ToLower] keeps a byte below 0x80 below it and any other byte as it
    is, so a database type with a byte that is not ASCII is never valid:
    as in the library, where only runes outside the three names can
    lower-case into ASCII. *)
Lemma isASCII_ToLower (s : string) : isASCII (ToLower s) = isASCII s.
Proof.
  unfold isASCII. induction s as [|c s IH]; [done|].
  simpl. rewrite IH. f_equal. unfold lowerByte, isUpper.
  destruct ((65 <=? byte c)%N && (byte c <=? 90)%N) eqn:E; [|done].
  apply andb_true_iff in E as [E1%N.leb_le E2%N.leb_le].
  unfold byte at 1. rewrite N_ascii_embedding by lia.
  unfold RuneSelf.
  destruct (N.ltb_spec (byte c + 32) 128), (N.ltb_spec (byte c) 128);
    try done; lia.
Qed.

Lemma nonASCII_invalid (s : string) : isASCII s = false -> ~ validDbType s.
Proof.
  intros H Hv. rewrite <- isASCII_ToLower in H.
  destruct Hv as [E|[E|E]]; by rewrite E in H.
Qed.

Lemma validateInputs_None (f : Flags) :
  validateInputs f = None
  <-> validDbType (dbType f) /\ 1 <= batchSize f
      /\ 1 <= maxWorkers f <= 50 /\ outputFile f <> "".
Proof.
  unfold validateInputs. rewrite <- validTypes_spec.
  destruct (validTypes (ToLower (dbType f))); simpl;
    [|split; [done | intros [? _]; done]].
  destruct (Z.ltb_spec (batchSize f) 1); [split; [done | lia]|].
  destruct (Z.ltb_spec (maxWorkers f) 1); simpl; [split; [done | lia]|].
  destruct (Z.gtb_spec (maxWorkers f) 50); [split; [done | lia]|].
  case_bool_decide; [split; [done | tauto]|].
  split; [intros _; repeat split; auto; lia | done].
Qed.

Lemma validateInputs_dbType (f : Flags) :
  ~ validDbType (dbType f) ->
  validateInputs f
  = Some ("invalid database type: " +:+ dbType f
          +:+ " (must be postgres, mysql, or mongodb)").
Proof.
  intros H. unfold validateInputs.
  destruct (validTypes (ToLower (dbType f))) eqn:E; [|done].
  by apply validTypes_spec in E.
Qed.

Lemma untilExit_app (a b : list Event) :
  forallb (fun e => negb (terminal e)) a = true ->
  untilExit (a ++ b) = a ++ untilExit b.
Proof.
  induction a as [|e a IH]; [done|]. simpl.
  intros [He Ha]%andb_true_iff.
  destruct e; simpl in *; try done; by rewrite IH.
Qed.

Lemma calls_untilExit (t : list Event) : (calls (untilExit t) <= calls t)%nat.
Proof.
  unfold calls. induction t as [|e t IH]; [done|].
  destruct e; simpl; rewrite ?filter_cons; simpl; try lia.
  all: rewrite ?filter_nil; simpl; lia.
Qed.

Section Process.

Variables infoColor successColor errorColor bannerColor
  : string -> string.
Variable DumpDatabase :
  string -> string -> string -> BackupOptions -> option string.

Local Abbreviation Run := (Run infoColor successColor errorColor DumpDatabase).
Local Abbreviation main :=
  (main infoColor successColor errorColor bannerColor DumpDatabase).
Local Abbreviation banner := (printAnimatedBanner infoColor bannerColor).

Lemma Run_rejected (f : Flags) (err : string) :
  validateInputs f = Some err ->
  Run f = [LogFatalf (errorColor "Error:" +:+ " " +:+ err)].
Proof. intros H. unfold Dumper.Run. by rewrite H. Qed.

Lemma Run_accepted (f : Flags) :
  validateInputs f = None ->
  exists last,
    Run f = [ Print (infoColor "Info:" +:+ " Starting database dump for "
                     +:+ dbType f +:+ "..." +:+ nl);
              CallDumpDatabase (dbType f) (connStr f) (outputFile f)
                (optionsOf f);
              last ]
    /\ isCall last = false.
Proof.
  intros H. unfold Dumper.Run. rewrite H. fold (optionsOf f).
  destruct (DumpDatabase _ _ _ _); eauto.
Qed.

Lemma Run_calls (f : Flags) :
  filter isCall (Run f)
  = match validateInputs f with
    | None => [CallDumpDatabase (dbType f) (connStr f) (outputFile f)
                 (optionsOf f)]
    | Some _ => []
    end.
Proof.
  destruct (validateInputs f) eqn:E.
  - by rewrite (Run_rejected _ _ E).
  - destruct (Run_accepted _ E) as (l & -> & Hl).
    rewrite !filter_cons, filter_nil. simpl. by rewrite Hl.
Qed.

Lemma banner_safe :
  forallb (fun e => negb (terminal e)) banner = true.
Proof. reflexivity. Qed.

Lemma banner_calls : filter isCall banner = [].
Proof. reflexivity. Qed.

Lemma untilExit_Run (f : Flags) : untilExit (Run f) = Run f.
Proof.
  unfold Dumper.Run. destruct (validateInputs f); [done|].
  by destruct (DumpDatabase _ _ _ _).
Qed.

Lemma main_root (f : Flags) : main (InvokeRoot f) = banner ++ Run f.
Proof.
  unfold Dumper.main, Execute. rewrite app_nil_r.
  rewrite untilExit_app by apply banner_safe.
  by rewrite untilExit_Run.
Qed.

Lemma main_calls (i : Invocation) :
  filter isCall (main i)
  = match i with
    | InvokeRoot f => filter isCall (Run f)
    | _ => []
    end.
Proof.
  destruct i as [f| |[e|]].
  - by rewrite main_root, filter_app, banner_calls.
  - reflexivity.
  - reflexivity.
  - reflexivity.
Qed.

(** C1: [validateInputs] returns an error exactly when the batch size
    is below 1, or the worker count is outside 1..50, or the output path
    is empty, or the database type is not a valid one; on flags that
    meet all four constraints it returns [nil], and the run then enters
    the engine once, with [BackupOptions] holding exactly the flags'
    values. *)
Theorem validateInputs_enforces_bounds (f : Flags) :
  (is_Some (validateInputs f)
   <-> batchSize f < 1 \/ ~ (1 <= maxWorkers f <= 50)
       \/ outputFile f = "" \/ ~ validDbType (dbType f))
  /\ (1 <= batchSize f -> 1 <= maxWorkers f <= 50 ->
      outputFile f <> "" -> validDbType (dbType f) ->
      validateInputs f = None
      /\ filter isCall (Run f)
         = [CallDumpDatabase (dbType f) (connStr f) (outputFile f)
              {| Compress := compress f;
                 BatchSize := batchSize f;
                 MaxWorkers := maxWorkers f;
                 Exclude := filterExcludeTables (excludeTables f) |}]).
Proof.
  split.
  - rewrite <- not_eq_None_Some, validateInputs_None.
    destruct (validDbType_dec (dbType f));
      destruct (decide (outputFile f = ""));
      destruct (decide (batchSize f < 1));
      destruct (decide (1 <= maxWorkers f <= 50));
      split; intros; try tauto; try (intuition lia).
    match goal with
    | Hno : ~ (_ /\ _) |- _ =>
        exfalso; apply Hno; repeat split; try done; lia
    end.
  - intros Hb Hw Ho Hd.
    assert (validateInputs f = None) as E
      by (apply validateInputs_None; tauto).
    split; [done|]. by rewrite Run_calls, E.
Qed.

(** C2: a database type that names none of the three backends makes the
    run stop in input validation with the configuration error, before
    the engine is entered; a process enters the engine at most once, and
    only when [validateInputs] returned [nil]. *)
Theorem unknown_dbType_fails_before_engine :
  (forall f, ~ validDbType (dbType f) ->
     validateInputs f
     = Some ("invalid database type: " +:+ dbType f
             +:+ " (must be postgres, mysql, or mongodb)")
     /\ Run f
        = [LogFatalf (errorColor "Error:" +:+ " "
                      +:+ "invalid database type: " +:+ dbType f
                      +:+ " (must be postgres, mysql, or mongodb)")]
     /\ calls (main (InvokeRoot f)) = 0%nat)
  /\ (forall i, (calls (main i) <= 1)%nat)
  /\ (forall i, calls (main i) = 1%nat ->
        exists f, i = InvokeRoot f /\ validateInputs f = None).
Proof.
  split; [|split].
  - intros f H. pose proof (validateInputs_dbType f H) as E.
    split; [done|]. split; [by apply Run_rejected|].
    unfold calls. by rewrite main_calls, Run_calls, E.
  - intros i. unfold calls. rewrite main_calls.
    destruct i; simpl; try lia. rewrite Run_calls.
    destruct (validateInputs f); simpl; lia.
  - intros i. unfold calls. rewrite main_calls.
    destruct i as [f| |e]; simpl; try done.
    rewrite Run_calls. destruct (validateInputs f) eqn:E; [done|].
    eauto.
Qed.

(** C10: a database type whose lower-case form is one of the three
    names passes validation whatever its case, and the engine is handed
    the string as it was typed, not its lower-case form. *)
Theorem dbType_checked_lowercase_forwarded_verbatim (f : Flags) :
  validDbType (dbType f) ->
  validTypes (ToLower (dbType f)) = true
  /\ (validateInputs f = None
      <-> 1 <= batchSize f /\ 1 <= maxWorkers f <= 50
          /\ outputFile f <> "")
  /\ (validateInputs f = None ->
      exists opts,
        filter isCall (Run f)
        = [CallDumpDatabase (dbType f) (connStr f) (outputFile f) opts]).
Proof.
  intros H. split; [by apply validTypes_spec|]. split.
  - rewrite validateInputs_None. tauto.
  - intros E. exists (optionsOf f). by rewrite Run_calls, E.
Qed.

End Process.

(** C9: [filterExcludeTables] splits its argument on commas, trims the
    white space at both ends of each piece and drops the pieces that are
    empty or white space only; the empty string gives no exclusion and
    [" users "] gives ["users"]. *)
Theorem filterExcludeTables_split_trim_drop (s : string) :
  String.concat "," (Split s ","%char) = s
  /\ Forall (fun p => hasByte ","%char p = false) (Split s ","%char)
  /\ filterExcludeTables s
     = filter (fun t => t <> "") (TrimSpace <$> Split s ","%char)
  /\ (forall p, exists l r,
        p = l +:+ TrimSpace p +:+ r /\ Spaces l /\ Spaces r
        /\ headSpace (TrimSpace p) = false
        /\ lastSpace (TrimSpace p) = false)
  /\ (forall p, TrimSpace p = "" <-> Spaces p)
  /\ filterExcludeTables "" = []
  /\ filterExcludeTables " users " = ["users"].
Proof.
  split; [apply Split_concat|].
  split; [apply Split_no_sep|].
  split; [apply filterExcludeTables_eq|].
  split; [apply TrimSpace_spec|].
  split; [apply TrimSpace_empty|].
  split; reflexivity.
Qed.

Lemma validateInputs_enforces_bounds_witness :
  validateInputs (sampleFlags "postgres") = None
  /\ filter isCall (Run noColor noColor noColor engineOK
                       (sampleFlags "postgres"))
     = [CallDumpDatabase "postgres" "host=db" "backup.sql"
          {| Compress := true; BatchSize := 5000; MaxWorkers := 5;
             Exclude := ["users"; "logs"] |}].
Proof.
  apply (validateInputs_enforces_bounds noColor noColor noColor engineOK
           (sampleFlags "postgres")); simpl; try lia; try done.
  by left.
Defined.

Lemma unknown_dbType_fails_before_engine_witness :
  calls (main noColor noColor noColor noColor engineOK
           (InvokeRoot (sampleFlags "oracle"))) = 0%nat.
Proof.
  apply (unknown_dbType_fails_before_engine noColor noColor noColor noColor
           engineOK).
  by intros [H|[H|H]].
Defined.

Lemma dbType_checked_lowercase_forwarded_verbatim_witness :
  exists opts,
    filter isCall (Run noColor noColor noColor engineOK
                     (sampleFlags "Postgres"))
    = [CallDumpDatabase "Postgres" "host=db" "backup.sql" opts].
Proof.
  apply (dbType_checked_lowercase_forwarded_verbatim noColor noColor noColor
           engineOK (sampleFlags "Postgres")); [by left | reflexivity].
Defined.

End DumperFacts.

Module EngineFacts.

Import Engine.
Local Open Scope nat_scope.
Local Set Warnings "-clear-no-such-hyp".

Lemma ceilDiv_0 (n : nat) : 0 < n -> ceilDiv 0 n = 0.
Proof. intros H. unfold ceilDiv. apply Nat.div_small. lia. Qed.

Lemma ceilDiv_step (R n : nat) :
  0 < n -> 0 < R -> ceilDiv R n = S (ceilDiv (R - n) n).
Proof.
  intros Hn HR. unfold ceilDiv.
  destruct (le_lt_dec R n) as [Hle|Hgt].
  - replace (R - n) with 0 by lia.
    rewrite (Nat.div_small (0 + n - 1)) by lia.
    symmetry. apply (Nat.div_unique _ _ 1 (R - 1)); lia.
  - replace (R + n - 1) with ((R - n + n - 1) + 1 * n) by lia.
    rewrite Nat.div_add by lia. lia.
Qed.

Section Backend.

Variable Row : Type.
Variable encode : Batch Row -> option string.
Variables openMarker closeMarker : string -> string.

Local Abbreviation Batch := (Batch Row).
Local Abbreviation Cursor := (Cursor Row).
Local Abbreviation Source := (Source Row).

Implicit Types (u : DumpableUnit) (c : Cursor) (bs : positive).

(** The Batch Reader on a cursor that never breaks. *)
Lemma readLoop_complete u bs (fuel : nat) c (idx : nat) :
  failAt Row c = None ->
  length (pending Row c) < fuel ->
  exists batches,
    readLoop Row fuel u bs c idx = Some (batches, Completed)
    /\ concat (rows Row <$> batches) = pending Row c
    /\ sequenceIndex Row <$> batches = seq idx (length batches)
    /\ length batches = ceilDiv (length (pending Row c)) (Pos.to_nat bs)
    /\ Forall (fun b => 1 <= length (rows Row b) <= Pos.to_nat bs) batches
    /\ (forall i b, batches !! i = Some b -> S i < length batches ->
          length (rows Row b) = Pos.to_nat bs).
Proof.
  revert c idx. induction fuel as [|fuel IH]; intros c idx Hf Hlen; [lia|].
  pose proof (Pos2Nat.is_pos bs) as Hbs.
  simpl. unfold FetchNextBatch. rewrite Hf.
  rewrite bool_decide_eq_false_2 by done.
  destruct (pending Row c) as [|r rs] eqn:E.
  { exists []. rewrite ceilDiv_0 by done. by repeat split. }
  set (c' := {| pending := drop (Pos.to_nat bs) (r :: rs);
                fetches := S (fetches Row c); failAt := None |}).
  destruct (IH c' (S idx)) as (bt & -> & Hcat & Hseq & Hn & Hall & Hfull).
  { done. }
  { simpl. rewrite length_drop. simpl in Hlen |- *. lia. }
  eexists. split; [done|]. csimpl in *.
  split; [by rewrite Hcat, take_drop|].
  split; [by rewrite Hseq|].
  split.
  { rewrite Hn, length_drop.
    rewrite (ceilDiv_step (length (r :: rs))) by (simpl; lia). done. }
  split.
  { constructor; [|done]. simpl. rewrite length_take. simpl. lia. }
  intros [|i] b Hi Hlt; simpl in Hi.
  - inversion Hi; subst; clear Hi. simpl. rewrite length_take.
    destruct bt as [|b' bt]; [simpl in Hlt; lia|].
    simpl in Hn. rewrite length_drop in Hn.
    destruct (le_lt_dec (length (r :: rs)) (Pos.to_nat bs)) as [Hle|Hgt];
      [|lia].
    replace (length (r :: rs) - Pos.to_nat bs) with 0 in Hn by lia.
    rewrite ceilDiv_0 in Hn by done. lia.
  - apply (Hfull i b Hi). simpl in Hlt. lia.
Qed.

(** The Batch Reader always returns, whatever the cursor does. *)
Lemma readLoop_total u bs (fuel : nat) c (idx : nat) :
  length (pending Row c) < fuel ->
  exists batches e,
    readLoop Row fuel u bs c idx = Some (batches, e)
    /\ sequenceIndex Row <$> batches = seq idx (length batches)
    /\ Forall (fun b => unit Row b = u) batches
    /\ (e = Completed -> concat (rows Row <$> batches) = pending Row c).
Proof.
  revert c idx. induction fuel as [|fuel IH]; intros c idx Hlen; [lia|].
  pose proof (Pos2Nat.is_pos bs) as Hbs.
  simpl. unfold FetchNextBatch. case_bool_decide as Hfail.
  { exists [], Broken. by repeat split. }
  destruct (pending Row c) as [|r rs] eqn:E.
  { exists [], Completed. by repeat split. }
  set (c' := {| pending := drop (Pos.to_nat bs) (r :: rs);
                fetches := S (fetches Row c); failAt := failAt Row c |}).
  destruct (IH c' (S idx)) as (bt & e & -> & Hseq & Hall & Hcat).
  { simpl. rewrite length_drop. simpl in Hlen |- *. lia. }
  eexists _, e. split; [done|]. csimpl in *.
  split; [by rewrite Hseq|].
  split; [by constructor|].
  intros He. by rewrite (Hcat He), take_drop.
Qed.

Lemma readUnit_total u bs c :
  exists batches e,
    readUnit Row u bs c = Some (batches, e)
    /\ sequenceIndex Row <$> batches = seq 0 (length batches)
    /\ Forall (fun b => unit Row b = u) batches
    /\ (e = Completed -> concat (rows Row <$> batches) = pending Row c).
Proof. apply readLoop_total. lia. Qed.

(** What the Serializer makes of a list of batches. *)
Lemma serializeAll_spec (bt : list Batch) :
  let '(fs, ok) := serializeAll Row encode bt in
  Forall2 (fun b f => encode b = Some (payload f)
                      /\ unitName f = name (unit Row b)
                      /\ fragmentIndex f = sequenceIndex Row b)
          (take (length fs) bt) fs
  /\ (ok = true -> length fs = length bt).
Proof.
  induction bt as [|b bt IH]; simpl; [by split; [constructor|]|].
  unfold Serializer. destruct (encode b) as [p|] eqn:E;
    [|by split; [constructor|]].
  destruct (serializeAll Row encode bt) as [fs ok]. simpl.
  destruct IH as [IH1 IH2]. split; [by constructor|].
  intros Hok. by rewrite IH2.
Qed.

Local Abbreviation unitWork := (unitWork Row encode).
Local Abbreviation succeeds := (succeeds Row encode).
Local Abbreviation unitOutput := (unitOutput Row encode).
Local Abbreviation unitInv := (unitInv Row encode).
Local Abbreviation poolInv := (poolInv Row encode).

Implicit Types (src : Source) (o : BackupOptions) (p q : Pool)
  (w : Worker) (n : string) (fs : list SerializedFragment).

Lemma emitted_Emit fs : emitted (Emit <$> fs) = fs.
Proof.
  induction fs as [|f fs IH]; [done|].
  unfold emitted in *. csimpl. by rewrite IH.
Qed.

Lemma emitted_app (a b : list Msg) : emitted (a ++ b) = emitted a ++ emitted b.
Proof. apply omap_app. Qed.

(** A unit's messages: fragments of the unit, then one closing message,
    [Complete] exactly when the unit succeeds. *)
Lemma unitWork_cases src o u :
  exists fs,
    Forall (fun f => unitName f = name u) fs
    /\ ((unitWork src o u = (Emit <$> fs) ++ [Complete (name u)]
         /\ succeeds src o u = true
         /\ emitted (unitWork src o u) = fs)
        \/ (unitWork src o u = (Emit <$> fs) ++ [Discard (name u)]
            /\ succeeds src o u = false)).
Proof.
  unfold Engine.succeeds, Engine.unitWork.
  destruct (OpenUnitCursor Row src u) as [c|];
    [|exists []; split; [constructor | right; by split]].
  destruct (readUnit_total u (batchSize o) c)
    as (bt & e & -> & _ & Hu & _).
  pose proof (serializeAll_spec bt) as Hs.
  destruct (serializeAll Row encode bt) as [fs ok].
  destruct Hs as [Hs _]. exists fs. split.
  { clear -Hs Hu.
    assert (Forall (fun b => unit Row b = u) (take (length fs) bt)) as Hu'
      by (by apply Forall_take).
    induction Hs as [|b f bt' fs' (_ & Hb & _) _ IH]; [constructor|].
    inversion Hu'; subst. constructor; [congruence | by apply IH]. }
  rewrite last_snoc, emitted_app, emitted_Emit. simpl.
  destruct e, ok; simpl; rewrite ?app_nil_r; auto.
Qed.

Lemma unitWork_nonempty src o u : unitWork src o u <> [].
Proof.
  destruct (unitWork_cases src o u) as (fs & _ & [(-> & _)|(-> & _)]);
    by destruct fs.
Qed.

(** Splitting a list that ends in [y] after some prefix. *)
Lemma app_cons_snoc {A} (l ms l' : list A) (x y : A) :
  l ++ x :: ms = l' ++ [y] ->
  (ms = [] /\ l = l' /\ x = y) \/ (ms <> [] /\ x ∈ l').
Proof.
  destruct ms as [|z ms _] using rev_ind.
  - intros [-> ->]%app_inj_tail. by left.
  - intros H. right. split; [by destruct ms|].
    replace (l ++ x :: ms ++ [z]) with ((l ++ x :: ms) ++ [z]) in H
      by (by rewrite <- (assoc_L (++))).
    apply app_inj_tail in H as [<- _]. set_solver.
Qed.

Lemma fmap_elem_inj {A B} `{EqDecision B} (f : A -> B) (l : list A) (x y : A) :
  NoDup (f <$> l) -> x ∈ l -> y ∈ l -> f x = f y -> x = y.
Proof.
  induction l as [|a l IH]; [by intros _ ?%elem_of_nil|].
  csimpl. intros [Hn Hd]%NoDup_cons Hx Hy E.
  apply elem_of_cons in Hx as [->|Hx], Hy as [->|Hy]; auto.
  - exfalso. apply Hn. rewrite E. by apply list_elem_of_fmap_2.
  - exfalso. apply Hn. rewrite <- E. by apply list_elem_of_fmap_2.
Qed.

(** The Writer, one message at a time. *)
Lemma bufferOf_Emit (wr : Writer) (f : SerializedFragment) n :
  bufferOf (deliver wr (Emit f)) n
  = if decide (unitName f = n) then bufferOf wr n ++ [f]
    else bufferOf wr n.
Proof.
  unfold bufferOf. simpl. case_decide as E.
  - subst. by rewrite lookup_insert_eq.
  - by rewrite lookup_insert_ne.
Qed.

Lemma bufferOf_delete (wr : Writer) (m : Msg) n n0 :
  m = Complete n0 \/ m = Discard n0 ->
  bufferOf (deliver wr m) n
  = if decide (n0 = n) then [] else bufferOf wr n.
Proof.
  unfold bufferOf. intros [-> | ->]; simpl; case_decide as E; subst;
    by rewrite ?lookup_delete_eq, ?lookup_delete_ne.
Qed.

Lemma entriesOf_app n (a b : list Entry) :
  entriesOf n (a ++ b) = entriesOf n a ++ entriesOf n b.
Proof. apply filter_app. Qed.

Lemma entriesOf_unit n n0 fs :
  Forall (fun f => unitName f = n0) fs ->
  entriesOf n (unitEntries n0 fs)
  = if decide (n0 = n) then unitEntries n0 fs else [].
Proof.
  intros H. unfold entriesOf, unitEntries.
  assert (filter (fun e => entryUnit e = n) (Fragment <$> fs)
          = if decide (n0 = n) then Fragment <$> fs else []) as E.
  { induction H as [|f fs Hf _ IH]; [by case_decide|].
    csimpl. rewrite filter_cons, IH. simpl. rewrite Hf.
    by repeat case_decide. }
  rewrite filter_cons, filter_app, E, filter_cons, filter_nil. simpl.
  by repeat case_decide.
Qed.

Lemma file_Emit (wr : Writer) (f : SerializedFragment) :
  file (deliver wr (Emit f)) = file wr.
Proof. reflexivity. Qed.

Lemma file_Complete (wr : Writer) n :
  file (deliver wr (Complete n))
  = file wr ++ unitEntries n (bufferOf wr n).
Proof. reflexivity. Qed.

Lemma file_Discard (wr : Writer) n :
  file (deliver wr (Discard n)) = file wr.
Proof. reflexivity. Qed.

Local Arguments deliver : simpl never.

Ltac fields :=
  cbv zeta; cbn [queue running writer attempted result unitsFailed];
  rewrite ?file_Emit, ?file_Complete, ?file_Discard.


(** A step that leaves the queue alone and touches neither the workers
    nor the Writer's view of other units keeps their invariant. *)
Lemma unitInv_frame src o p q u n :
  name u <> n ->
  queue q = queue p ->
  (forall w, owned w <> n -> w ∈ running q <-> w ∈ running p) ->
  entriesOf (name u) (file (writer q))
  = entriesOf (name u) (file (writer p)) ->
  bufferOf (writer q) (name u) = bufferOf (writer p) (name u) ->
  (name u ∈ unitsFailed (result q) <-> name u ∈ unitsFailed (result p)) ->
  unitInv src o p u -> unitInv src o q u.
Proof.
  intros Hne Hq Hw Hf Hb Hfail.
  assert (name u ∉ (owned <$> running p) ->
          name u ∉ (owned <$> running q)) as Hown.
  { intros H (w & E & Hin)%list_elem_of_fmap. apply H.
    apply list_elem_of_fmap. exists w. split; [done|].
    apply Hw; [congruence | done]. }
  unfold Engine.unitInv. cbv zeta. rewrite Hq, Hf, Hb.
  intros [(H1 & H2 & H3 & H4 & H5)
         |[(H1 & w & fs & Hin & Ho & H3 & H4 & H5 & H6 & H7)
          |(H1 & H2 & H3 & H4 & H5)]].
  - left. split; [done|]. split; [by apply Hown|].
    split; [done|]. split; [done | tauto].
  - right. left. split; [done|]. exists w, fs.
    split; [apply Hw; [congruence | done]|].
    repeat (split; [done|]). tauto.
  - right. right. split; [done|]. split; [by apply Hown|].
    split; [done|]. split; [done | tauto].
Qed.

Lemma poolInv_claim src o us p q :
  NoDup (name <$> us) ->
  claim Row encode src o p = Some q ->
  poolInv src o us p -> poolInv src o us q.
Proof.
  intros Hnd Hc (Ha & Hb & Hc' & Hd & He).
  unfold claim in Hc. destruct (queue p) as [|u0 q0] eqn:Eq; [done|].
  case_bool_decide; [|done]. inversion Hc; subst q; clear Hc.
  destruct Ha as (cl & Hus & Hatt).
  assert (u0 ∈ us) as Hu0 by (rewrite Hus; set_solver).
  assert (name u0 ∉ (name <$> q0)) as Hq0.
  { rewrite Hus, fmap_app in Hnd. apply NoDup_app in Hnd as (_ & _ & Hnd).
    csimpl in Hnd. by apply NoDup_cons in Hnd as [? _]. }
  assert (name u0 ∉ (owned <$> running p)) as Hrun.
  { destruct (Hd u0 Hu0) as [(_ & H2 & _)|[(H1 & _)|(H1 & _)]];
      [done|..]; exfalso; apply H1; rewrite Eq; csimpl; set_solver. }
  split; [|split; [|split; [|split]]]; simpl.
  - exists (cl ++ [u0]). rewrite <- (assoc_L (++)). split; [done|].
    by rewrite fmap_app, Hatt.
  - rewrite fmap_app. apply NoDup_app. split; [done|]. split.
    + intros x Hx ->%list_elem_of_singleton. done.
    + apply NoDup_singleton.
  - intros w [Hw| ->%list_elem_of_singleton]%elem_of_app; [auto|].
    by exists u0.
  - intros u Hu. destruct (decide (name u = name u0)) as [E|Hne].
    + assert (u = u0) as -> by (by apply (fmap_elem_inj name us)).
      right. left. simpl. split; [done|].
      destruct (Hd u0 Hu0) as [(_ & _ & H3 & H4 & H5)|[(H1 & _)|(H1 & _)]];
        [|exfalso; apply H1; rewrite Eq; csimpl; set_solver..].
      exists {| owned := name u0; todo := unitWork src o u0 |}, [].
      split; [set_solver|]. simpl.
      repeat split; try done. apply unitWork_nonempty.
    + destruct (Hd u Hu)
        as [(H1 & H2 & H3)|[(H1 & w & fs & Hin & H3)|(H1 & H2 & H3)]].
      * left. simpl. rewrite Eq in H1. csimpl in H1.
        split; [set_solver|]. split; [|done].
        rewrite fmap_app. csimpl. set_solver.
      * right. left. simpl. rewrite Eq in H1. csimpl in H1.
        split; [set_solver|]. exists w, fs. split; [set_solver | done].
      * right. right. simpl. rewrite Eq in H1. csimpl in H1.
        split; [set_solver|]. split; [|done].
        rewrite fmap_app. csimpl. set_solver.
  - done.
Qed.

(** The busy worker [w] at position [i], with the unit it owns and
    what the invariant says of it. *)
Lemma running_worker src o us p (i : nat) w :
  poolInv src o us p -> NoDup (name <$> us) ->
  running p !! i = Some w ->
  exists u fs,
    u ∈ us /\ name u = owned w
    /\ (name u ∉ (name <$> queue p))
    /\ unitWork src o u = (Emit <$> fs) ++ todo w
    /\ entriesOf (name u) (file (writer p)) = []
    /\ bufferOf (writer p) (name u) = fs
    /\ (name u ∉ unitsFailed (result p))
    /\ running p = take i (running p) ++ w :: drop (S i) (running p)
    /\ (owned w ∉ (owned <$> take i (running p)))
    /\ (owned w ∉ (owned <$> drop (S i) (running p)))
    /\ NoDup (owned <$> (take i (running p) ++ drop (S i) (running p))).
Proof.
  intros (_ & Hb & Hc & Hd & _) Hnd Hi.
  pose proof (list_elem_of_lookup_2 _ _ _ Hi) as Hin.
  destruct (Hc w Hin) as (u & Hu & En). exists u.
  pose proof (take_drop_middle _ _ _ Hi) as Hsplit.
  assert (owned w ∈ (owned <$> running p)) as Hown
    by (by apply list_elem_of_fmap_2).
  destruct (Hd u Hu)
    as [(_ & H2 & _)|[(H1 & w' & fs & Hin' & Ho & H3 & _ & H5 & H6 & H7)
                     |(_ & H2 & _)]];
    [by rewrite En in H2| |by rewrite En in H2].
  assert (w' = w) as ->.
  { apply (fmap_elem_inj owned (running p)); [done..|congruence]. }
  exists fs. repeat (split; [done|]).
  rewrite <- Hsplit in Hb. rewrite fmap_app in Hb. csimpl in Hb.
  apply NoDup_app in Hb as (Hb1 & Hb2 & Hb3).
  apply NoDup_cons in Hb3 as [Hb3 Hb4].
  split; [intros H; by apply (Hb2 _ H); left|]. split; [done|].
  rewrite fmap_app. apply NoDup_app. split; [done|]. split; [|done].
  intros x Hx Hx'. apply (Hb2 _ Hx). by right.
Qed.

Lemma poolInv_advance src o us p q (i : nat) :
  NoDup (name <$> us) ->
  advance openMarker closeMarker i p = Some q ->
  poolInv src o us p -> poolInv src o us q.
Proof.
  intros Hnd Hadv Hinv. unfold advance in Hadv.
  destruct (running p !! i) as [w|] eqn:Hi; [|done].
  destruct (todo w) as [|m ms] eqn:Etodo; [done|].
  destruct (running_worker _ _ _ _ _ _ Hinv Hnd Hi)
    as (u & fs & Hu & En & Hq & Hwork & Hfile & Hbuf & Hfail & Hsplit
        & Hl1 & Hl2 & Hnd').
  destruct Hinv as (Ha & Hb & Hc & Hd & He).
  rewrite Etodo in Hwork.
  destruct (unitWork_cases src o u) as (fsAll & Hall & Hcases).
  assert (forall u', u' ∈ us -> name u' = name u -> u' = u) as Hsame
    by (intros u' Hu' E; by apply (fmap_elem_inj name us)).
  assert (name u ∈ (name <$> us)) as Hnu by (by apply list_elem_of_fmap_2).
  assert (forall w', owned w' <> name u ->
            w' ∈ take i (running p) ++ drop (S i) (running p)
            <-> w' ∈ running p) as Hrest.
  { intros w' Hw'. rewrite Hsplit at 3.
    rewrite !elem_of_app, elem_of_cons.
    split; [tauto|]. intros [?|[->|?]]; [tauto| |tauto]. congruence. }
  destruct m as [f|n0|n0].
  - (* a fragment is handed to the Writer *)
    assert (ms <> [] /\ unitName f = name u) as [Hms Hf].
    { destruct Hcases as [(E & _)|(E & _)]; rewrite E in Hwork;
        symmetry in Hwork;
        apply app_cons_snoc in Hwork as [(_ & _ & ?)|(? & Hin)];
        try done;
        apply list_elem_of_fmap in Hin as (f' & [= <-] & Hin);
        split; try done;
        by apply (proj1 (Forall_forall _ _) Hall). }
    apply (inj Some) in Hadv; subst q.
    assert (<[i:={| owned := owned w; todo := ms |}]> (running p)
            = take i (running p) ++ {| owned := owned w; todo := ms |}
              :: drop (S i) (running p)) as Hins.
    { apply insert_take_drop. by eapply lookup_lt_Some. }
    split; [done|]. split; [|split; [|split]]; fields.
    + rewrite list_fmap_insert. simpl.
      rewrite list_insert_id; [done|]. by rewrite list_lookup_fmap, Hi.
    + rewrite Hins. intros w' Hw'.
      apply elem_of_app in Hw' as [Hw'|Hw'].
      * apply Hc. rewrite Hsplit. set_solver.
      * apply elem_of_cons in Hw' as [->|Hw'].
        -- exists u. by split.
        -- apply Hc. rewrite Hsplit. set_solver.
    + intros u' Hu'. destruct (decide (name u' = name u)) as [E|Hne].
      * rewrite (Hsame u' Hu' E). right; left; fields.
        split; [done|].
        exists {| owned := owned w; todo := ms |}, (fs ++ [f]).
        split; [rewrite Hins; set_solver|]. cbn [owned todo].
        split; [done|]. split.
        { rewrite Hwork, fmap_app, <- (assoc_L (++)). done. }
        split; [done|]. split; [done|].
        rewrite bufferOf_Emit, decide_True by done.
        by rewrite Hbuf.
      * apply (unitInv_frame src o p _ u' (name u)); fields; try done.
        -- intros w' Hw'. rewrite Hins, <- (Hrest w' Hw').
           rewrite !elem_of_app, elem_of_cons.
           split; [|tauto]. intros [?|[->|?]]; [tauto| |tauto].
           simpl in Hw'. congruence.
        -- rewrite bufferOf_Emit, decide_False; [done | congruence].
        -- by apply Hd.
    + done.
  - (* the unit is complete: its buffer goes to the file *)
    assert (ms = [] /\ fs = fsAll /\ n0 = name u
            /\ succeeds src o u = true
            /\ emitted (unitWork src o u) = fsAll)
      as (-> & -> & -> & Hok & Hem).
    { destruct Hcases as [(E & Hs & Hem)|(E & _)]; rewrite E in Hwork;
        symmetry in Hwork;
        apply app_cons_snoc in Hwork as [(? & Hfs & Hn)|(? & Hin)].
      - apply (f_equal emitted) in Hfs. rewrite !emitted_Emit in Hfs.
        by inversion Hn.
      - by apply list_elem_of_fmap in Hin as (? & ? & _).
      - done.
      - by apply list_elem_of_fmap in Hin as (? & ? & _). }
    apply (inj Some) in Hadv; subst q.
    rewrite delete_take_drop.
    split; [done|]. split; [done|]. split; [|split]; fields.
    + intros w' Hw'. apply Hc. rewrite Hsplit. set_solver.
    + intros u' Hu'. destruct (decide (name u' = name u)) as [E|Hne].
      * rewrite (Hsame u' Hu' E). right; right; fields.
        split; [done|]. split.
        { rewrite En, fmap_app. set_solver. }
        split.
        { rewrite entriesOf_app, Hfile, Hbuf, entriesOf_unit by done.
          rewrite decide_True by done. unfold Engine.unitOutput.
          by rewrite Hok, Hem. }
        split.
        { by rewrite (bufferOf_delete _ _ _ (name u)), decide_True
            by auto. }
        split; [done | congruence].
      * apply (unitInv_frame src o p _ u' (name u)); fields; try done.
        -- rewrite entriesOf_app, Hbuf, entriesOf_unit by done.
           rewrite decide_False by congruence. by rewrite app_nil_r.
        -- rewrite (bufferOf_delete _ _ _ (name u)) by auto.
           rewrite decide_False; [done | congruence].
        -- by apply Hd.
    + intros n Hn. destruct (He n Hn) as [He1 He2]. split; [|done].
      rewrite entriesOf_app, He1, Hbuf, entriesOf_unit by done.
      rewrite decide_False; [done|]. intros <-. done.
  - (* the unit failed: its buffer is dropped *)
    assert (ms = [] /\ n0 = name u /\ succeeds src o u = false)
      as (-> & -> & Hok).
    { destruct Hcases as [(E & _)|(E & Hs)]; rewrite E in Hwork;
        symmetry in Hwork;
        apply app_cons_snoc in Hwork as [(? & Hfs & Hn)|(? & Hin)].
      - done.
      - by apply list_elem_of_fmap in Hin as (? & ? & _).
      - by inversion Hn.
      - by apply list_elem_of_fmap in Hin as (? & ? & _). }
    apply (inj Some) in Hadv; subst q.
    rewrite delete_take_drop.
    split; [done|]. split; [done|]. split; [|split]; fields.
    + intros w' Hw'. apply Hc. rewrite Hsplit. set_solver.
    + intros u' Hu'. destruct (decide (name u' = name u)) as [E|Hne].
      * rewrite (Hsame u' Hu' E). right; right; fields.
        split; [done|]. split.
        { rewrite En, fmap_app. set_solver. }
        split.
        { unfold Engine.unitOutput. by rewrite Hok. }
        split.
        { by rewrite (bufferOf_delete _ _ _ (name u)), decide_True
            by auto. }
        split; [done | set_solver].
      * apply (unitInv_frame src o p _ u' (name u)); fields; try done.
        -- rewrite (bufferOf_delete _ _ _ (name u)) by auto.
           rewrite decide_False; [done | congruence].
        -- set_solver.
        -- by apply Hd.
    + intros n Hn. destruct (He n Hn) as [He1 He2]. split; [done|].
      set_solver.
Qed.

Local Abbreviation runSchedule :=
  (runSchedule Row encode openMarker closeMarker).
Local Abbreviation poolStep := (poolStep Row encode openMarker closeMarker).
Local Abbreviation dump := (dump Row encode openMarker closeMarker).
Local Abbreviation sequentialSchedule := (sequentialSchedule Row encode).
Local Abbreviation stepsLeft := (stepsLeft Row encode).

Lemma poolInv_step src o us p q (c : option nat) :
  NoDup (name <$> us) ->
  poolStep src o c p = Some q ->
  poolInv src o us p -> poolInv src o us q.
Proof.
  destruct c as [i|]; simpl.
  - apply poolInv_advance.
  - apply poolInv_claim.
Qed.


Lemma finished_spec p : finished p = true <-> queue p = [] /\ running p = [].
Proof.
  unfold finished.
  rewrite andb_true_iff, !bool_decide_eq_true, !length_zero_iff_nil.
  done.
Qed.





(** Each step of the pool uses up one of the steps left. *)
Lemma stepsLeft_step src o us p q (c : option nat) :
  NoDup (name <$> us) -> poolInv src o us p ->
  poolStep src o c p = Some q ->
  stepsLeft src o p = S (stepsLeft src o q).
Proof.
  intros Hnd Hinv. unfold Engine.stepsLeft. destruct c as [i|]; simpl.
  - unfold advance. destruct (running p !! i) as [w|] eqn:Hi; [|done].
    destruct (todo w) as [|m ms] eqn:Et; [done|].
    destruct (running_worker _ _ _ _ _ _ Hinv Hnd Hi)
      as (u & fs & Hu & En & _ & Hwork & _ & _ & _ & Hsplit & _).
    destruct (unitWork_cases src o u) as (fsAll & _ & Hcases).
    rewrite Et in Hwork.
    assert (match m with Emit _ => ms <> [] | _ => ms = [] end) as Hm.
    { destruct Hcases as [(E & _)|(E & _)]; rewrite E in Hwork;
        symmetry in Hwork;
        apply app_cons_snoc in Hwork as [(? & _ & ?)|(? & Hin)];
        subst; try done;
        apply list_elem_of_fmap in Hin as (f' & -> & _); done. }
    intros [= <-]. rewrite Hsplit at 1.
    rewrite sum_list_with_app. csimpl. rewrite Et. simpl.
    destruct m; simpl.
    + rewrite insert_take_drop by (by eapply lookup_lt_Some).
      rewrite sum_list_with_app. simpl. lia.
    + subst ms. rewrite delete_take_drop, sum_list_with_app.
      simpl. lia.
    + subst ms. rewrite delete_take_drop, sum_list_with_app.
      simpl. lia.
  - unfold claim. destruct (queue p) as [|u q0]; [done|].
    case_bool_decide; [|done]. intros [= <-]. simpl.
    rewrite sum_list_with_app. simpl. lia.
Qed.

(** No schedule runs longer than the work there is: the pool comes to
    an end whatever the interleaving. *)
Lemma runSchedule_bound src o us (sched : list (option nat)) p q :
  NoDup (name <$> us) -> poolInv src o us p ->
  runSchedule src o sched p = Some q ->
  stepsLeft src o p = length sched + stepsLeft src o q.
Proof.
  intros Hnd. revert p. induction sched as [|c cs IH]; intros p Hinv; simpl.
  - by intros [= ->].
  - destruct (poolStep src o c p) as [p'|] eqn:E; [|done].
    intros Hrun. rewrite (stepsLeft_step _ _ _ _ _ _ Hnd Hinv E).
    rewrite (IH p'); [done | by eapply poolInv_step | done].
Qed.

(** A pool that is not finished can take a step. *)
Lemma pool_progress src o us p :
  (1 <= maxWorkers o) ->
  NoDup (name <$> us) -> poolInv src o us p -> finished p = false ->
  exists (ch : option nat) q, poolStep src o ch p = Some q.
Proof.
  intros Hw Hnd Hinv Hfin.
  destruct (running p) as [|w ws] eqn:Hr.
  - destruct (queue p) as [|u q0] eqn:Hq.
    + exfalso. assert (finished p = true); [|congruence].
      by apply finished_spec.
    + exists None. simpl. unfold claim. rewrite Hq, Hr. simpl.
      rewrite bool_decide_eq_true_2 by lia. eauto.
  - exists (Some 0). simpl. unfold advance. rewrite Hr. simpl.
    assert (running p !! 0 = Some w) as Hi by (by rewrite Hr).
    destruct (running_worker _ _ _ _ _ _ Hinv Hnd Hi)
      as (u & fs & Hu & En & _ & Hwork & _).
    destruct (Hinv) as (_ & _ & _ & Hd & _).
    destruct (Hd u Hu)
      as [(_ & H2 & _)|[(_ & w' & fs' & Hin & Ho & _ & Hne & _)
                       |(_ & H2 & _)]].
    * exfalso. apply H2. rewrite Hr, En. csimpl. set_solver.
    * assert (w' = w) as ->.
      { destruct Hinv as (_ & Hb & _).
        apply (fmap_elem_inj owned (running p)); try done.
        - rewrite Hr. set_solver.
        - congruence. }
      destruct (todo w) as [|m ms]; [done|]. eauto.
    * exfalso. apply H2. rewrite Hr, En. csimpl. set_solver.
Qed.











Lemma ceilDiv_spec (R n : nat) :
  0 < n ->
  R <= ceilDiv R n * n /\ (0 < R -> (ceilDiv R n - 1) * n < R).
Proof.
  intros Hn. unfold ceilDiv.
  pose proof (Nat.div_mod (R + n - 1) n ltac:(lia)) as Hd.
  pose proof (Nat.mod_upper_bound (R + n - 1) n ltac:(lia)) as Hm.
  split; [nia|]. intros HR.
  assert (1 <= (R + n - 1) / n) by (apply Nat.div_le_lower_bound; lia).
  nia.
Qed.


(** C5: the Batch Reader cuts a unit of [R] records into
    [ceil (R / batchSize)] batches, in order, each full except possibly
    the last, none empty; with a batch size of 4, ten records come in
    batches of 4, 4 and 2 and five records in batches of 4 and 1. *)
Theorem batch_reader_partition u bs (rs : list Row) :
  let c := {| pending := rs; fetches := 0; failAt := None |} in
  let n := Pos.to_nat bs in
  (exists batches,
     readUnit Row u bs c = Some (batches, Completed)
     /\ concat (rows Row <$> batches) = rs
     /\ length batches = ceilDiv (length rs) n
     /\ Forall (fun b => 1 <= length (rows Row b) <= n) batches
     /\ (forall i b, batches !! i = Some b -> S i < length batches ->
           length (rows Row b) = n)
     /\ sequenceIndex Row <$> batches = seq 0 (length batches))
  /\ (length rs <= ceilDiv (length rs) n * n
      /\ (0 < length rs -> (ceilDiv (length rs) n - 1) * n < length rs))
  /\ (forall e batches,
        bs = 4%positive -> length rs = 10 ->
        readUnit Row u bs c = Some (batches, e) ->
        e = Completed
        /\ (fun b => length (rows Row b)) <$> batches = [4; 4; 2])
  /\ (forall e batches,
        bs = 4%positive -> length rs = 5 ->
        readUnit Row u bs c = Some (batches, e) ->
        e = Completed
        /\ (fun b => length (rows Row b)) <$> batches = [4; 1]).
Proof.
  intros c n. split; [|split; [|split]].
  - destruct (readLoop_complete u bs (S (length rs)) c 0)
      as (bt & H1 & H2 & H3 & H4 & H5 & H6); [done | simpl; lia |].
    exists bt. by repeat split.
  - apply ceilDiv_spec. apply Pos2Nat.is_pos.
  - intros e bt -> Hlen.
    do 11 (destruct rs as [|? rs]; try done).
    intros [= <- <-]. by split.
  - intros e bt -> Hlen.
    do 6 (destruct rs as [|? rs]; try done).
    intros [= <- <-]. by split.
Qed.



End Backend.


(** The first scenario of section 8: with [B] excluded and batches of 4,
    the file holds [A] in three fragments and [C] in two, and nothing of
    [B]. *)
Example scenario_exclude_B :
  (fun r => (claimed r,
             fileBytes tagOpen tagClose (output r),
             (fun f => String.length (payload f))
               <$> fragmentsOf "A" (output r),
             (fun f => String.length (payload f))
               <$> fragmentsOf "C" (output r),
             entriesOf "B" (output r)))
    <$> dumpSequential ascii byteEncode tagOpen tagClose (sampleSource [])
          (sampleOptions ["B"])
  = Some (["A"; "C"], "<A>0123456789</A><C>abcde</C>", [4; 4; 2], [4; 1], []).
Proof. vm_compute. reflexivity. Qed.








End EngineFacts.

(** * Further properties of [main.go] *)

Module GoStringsLaws.
Import GoStrings GoStringsFacts.

Lemma Split_app (a b : string) (sep : ascii) :
  Split (a +:+ String sep b) sep = Split a sep ++ Split b sep.
Proof.
  induction a as [|c a IH].
  - rewrite sapp_nil_l. simpl. by rewrite Ascii.eqb_refl.
  - rewrite sapp_cons. simpl. destruct (Ascii.eqb c sep); [by rewrite IH|].
    rewrite IH. destruct (Split_cons a sep) as (p & ps & ->). done.
Qed.

Lemma Split_whole (p : string) (sep : ascii) :
  hasByte sep p = false -> Split p sep = [p].
Proof.
  induction p as [|c p IH]; [done|]. simpl.
  intros [H1 H2]%orb_false_iff. rewrite H1, (IH H2). done.
Qed.

(** Splitting what was joined gives the pieces back. *)
Lemma Split_join (ps : list string) (sep : ascii) :
  ps <> [] -> Forall (fun p => hasByte sep p = false) ps ->
  Split (String.concat (String sep "") ps) sep = ps.
Proof.
  induction ps as [|p ps IH]; [done|]. intros _ Hall.
  inversion Hall as [|? ? Hp Hps]; subst.
  destruct ps as [|q ps]; [by apply Split_whole|].
  change (String.concat (String sep "") (p :: q :: ps))
    with (p +:+ String sep "" +:+ String.concat (String sep "") (q :: ps)).
  rewrite sapp_cons, sapp_nil_l, Split_app, Split_whole by done.
  by rewrite IH.
Qed.

Lemma Split_length (s : string) (sep : ascii) :
  length (Split s sep) = S (countByte sep s).
Proof.
  induction s as [|c s IH]; [done|]. simpl.
  destruct (Ascii.eqb c sep); simpl; [by rewrite IH|].
  destruct (Split_cons s sep) as (p & ps & E). rewrite E in IH |- *.
  exact IH.
Qed.

Lemma hasByte_app (c : ascii) (a b : string) :
  hasByte c (a +:+ b) = hasByte c a || hasByte c b.
Proof.
  induction a as [|d a IH]; [done|].
  rewrite sapp_cons. simpl. by rewrite IH, orb_assoc.
Qed.

Lemma trimLeft_id (s : string) : headSpace s = false -> trimLeft s = s.
Proof.
  destruct s as [|c0 [|c1 [|c2 r]]]; simpl; try done.
  - rewrite orb_false_r. by intros ->.
  - rewrite orb_false_r. by intros [-> ->]%orb_false_iff.
  - intros [-> [-> ->]%orb_false_iff]%orb_false_iff. done.
Qed.

Lemma trimLeftRev_id (s : string) :
  headSpaceRev s = false -> trimLeftRev s = s.
Proof.
  destruct s as [|c0 [|c1 [|c2 r]]]; simpl; try done.
  - rewrite orb_false_r. by intros ->.
  - rewrite orb_false_r. by intros [-> ->]%orb_false_iff.
  - intros [-> [-> ->]%orb_false_iff]%orb_false_iff. done.
Qed.

(** A string with no white space at either end is left as it is. *)
Lemma TrimSpace_id (s : string) :
  headSpace s = false -> lastSpace s = false -> TrimSpace s = s.
Proof.
  intros Hh Hl. unfold TrimSpace, trimRight. rewrite (trimLeft_id s Hh).
  unfold lastSpace in Hl. by rewrite (trimLeftRev_id _ Hl), srev_involutive.
Qed.

Lemma TrimSpace_idempotent (s : string) :
  TrimSpace (TrimSpace s) = TrimSpace s.
Proof.
  destruct (TrimSpace_spec s) as (l & r & _ & _ & _ & Hh & Hl).
  by apply TrimSpace_id.
Qed.

Lemma TrimSpace_no_byte (c : ascii) (s : string) :
  hasByte c s = false -> hasByte c (TrimSpace s) = false.
Proof.
  destruct (TrimSpace_spec s) as (l & r & E & _). intros H.
  rewrite E, !hasByte_app in H.
  by apply orb_false_iff in H as [_ [H _]%orb_false_iff].
Qed.

End GoStringsLaws.

Module DumperLaws.
Import GoStrings GoStringsFacts GoStringsLaws Dumper DumperFacts.

Lemma filterExcludeTables_clean (s t : string) :
  t ∈ filterExcludeTables s -> cleanEntry t.
Proof.
  rewrite filterExcludeTables_eq, list_elem_of_filter, list_elem_of_fmap.
  intros (Hne & p & -> & Hp).
  destruct (TrimSpace_spec p) as (l & r & _ & _ & _ & Hh & Hl).
  repeat split; try done.
  apply TrimSpace_no_byte.
  by apply (proj1 (Forall_forall _ _) (Split_no_sep s ","%char)).
Qed.

(** X1: every entry [filterExcludeTables] returns is non-empty, holds no
    comma and has no white space at either end, and it is a piece of the
    argument between two commas with only white space cut off. *)
Theorem filterExcludeTables_entries (s t : string) :
  t ∈ filterExcludeTables s ->
  cleanEntry t
  /\ exists p l r,
       p ∈ Split s ","%char /\ p = l +:+ t +:+ r /\ Spaces l /\ Spaces r.
Proof.
  intros H. split; [by eapply filterExcludeTables_clean|].
  rewrite filterExcludeTables_eq, list_elem_of_filter, list_elem_of_fmap in H.
  destruct H as (_ & p & -> & Hp).
  destruct (TrimSpace_spec p) as (l & r & E & Hl & Hr & _).
  by exists p, l, r.
Qed.

(** X2: the exclusion list of two lists written one after the other with a
    comma between them is the two exclusion lists one after the other. *)
Theorem filterExcludeTables_comma (a b : string) :
  filterExcludeTables (a +:+ "," +:+ b)
  = filterExcludeTables a ++ filterExcludeTables b.
Proof.
  rewrite !filterExcludeTables_eq.
  change ("," +:+ b) with (String ","%char b).
  by rewrite Split_app, fmap_app, filter_app.
Qed.

Lemma filter_clean (l : list string) :
  Forall cleanEntry l ->
  filter (fun t => t <> "") (TrimSpace <$> l) = l.
Proof.
  induction 1 as [|t l (Hne & _ & Hh & Hl) _ IH]; [done|].
  csimpl. rewrite filter_cons, (TrimSpace_id t Hh Hl), decide_True by done.
  by rewrite IH.
Qed.

(** X3: a list of names that are non-empty, comma-free and without white
    space at their ends is read back exactly from its comma-separated
    form; the empty list from the empty string. *)
Theorem filterExcludeTables_join (l : list string) :
  Forall cleanEntry l ->
  filterExcludeTables (String.concat "," l) = l.
Proof.
  intros Hall. destruct l as [|t l]; [done|].
  rewrite filterExcludeTables_eq, Split_join; [by apply filter_clean|done|].
  eapply Forall_impl; [exact Hall|]. by intros ? (_ & ? & _).
Qed.

(** X4: there are at most as many entries as commas plus one, and none at
    all exactly when every piece between the commas is white space
    only. *)
Theorem filterExcludeTables_size (s : string) :
  (length (filterExcludeTables s) <= S (countByte ","%char s))%nat
  /\ (filterExcludeTables s = [] <-> Forall Spaces (Split s ","%char)).
Proof.
  rewrite filterExcludeTables_eq. split.
  - rewrite <- Split_length, <- (length_fmap TrimSpace (Split s ","%char)).
    apply length_filter.
  - induction (Split s ","%char) as [|p ps IH]; [by split|].
    csimpl. rewrite filter_cons, Forall_cons, <- IH, <- TrimSpace_empty.
    case_decide as E; [|tauto]. split; [done | by intros [? _]].
Qed.

Lemma lowerByte_lower (c d : ascii) :
  isLower d = true ->
  lowerByte c = d <-> c = d \/ c = upperByte d.
Proof.
  unfold upperByte, lowerByte, isUpper. intros Hd. rewrite Hd.
  unfold isLower in Hd.
  apply andb_true_iff in Hd as [H1%N.leb_le H2%N.leb_le].
  pose proof (N_ascii_bounded c) as Hc. fold (byte c) in Hc.
  split.
  - destruct ((65 <=? byte c)%N && (byte c <=? 90)%N) eqn:E; [|by left].
    apply andb_true_iff in E as [E1%N.leb_le E2%N.leb_le].
    intros <-. right. unfold byte at 1.
    rewrite N_ascii_embedding by lia.
    replace (byte c + 32 - 32)%N with (byte c) by lia.
    unfold byte. by rewrite ascii_N_embedding.
  - intros [-> | ->].
    + destruct (N.leb_spec 65 (byte d)), (N.leb_spec (byte d) 90);
        simpl; try done; lia.
    + unfold byte in *. rewrite N_ascii_embedding by lia.
      destruct (N.leb_spec 65 (N_of_ascii d - 32)),
        (N.leb_spec (N_of_ascii d - 32) 90); simpl; try lia.
      replace (N_of_ascii d - 32 + 32)%N with (N_of_ascii d) by lia.
      by rewrite ascii_N_embedding.
Qed.

Lemma ToLower_caseVariant (s name : string) :
  allLower name = true ->
  ToLower s = name <-> caseVariant s name = true.
Proof.
  revert name. induction s as [|c s IH]; intros [|d name]; simpl; try done.
  intros [Hd Hn]%andb_true_iff.
  rewrite andb_true_iff, orb_true_iff, !Ascii.eqb_eq, <- (IH name Hn),
    <- (lowerByte_lower c d Hd).
  split; [by intros [= -> ->] | by intros [-> ->]].
Qed.

Lemma caseVariant_length (s name : string) :
  caseVariant s name = true -> String.length s = String.length name.
Proof.
  revert name. induction s as [|c s IH]; intros [|d name]; simpl; try done.
  intros [_ H]%andb_true_iff. by rewrite (IH name H).
Qed.

(** X5: the database types [validateInputs] lets through are exactly the
    spellings of postgres, mysql and mongodb in upper- and lower-case
    letters; so a valid type is 8, 5 or 7 bytes long. *)
Theorem validDbType_spellings (s : string) :
  (validDbType s
   <-> caseVariant s "postgres" = true \/ caseVariant s "mysql" = true
       \/ caseVariant s "mongodb" = true)
  /\ (validDbType s ->
      String.length s = 8%nat \/ String.length s = 5%nat
      \/ String.length s = 7%nat).
Proof.
  assert (validDbType s
          <-> caseVariant s "postgres" = true \/ caseVariant s "mysql" = true
              \/ caseVariant s "mongodb" = true) as H.
  { unfold validDbType. by rewrite !ToLower_caseVariant. }
  split; [done|]. rewrite H.
  intros [E|[E|E]]; apply caseVariant_length in E; auto.
Qed.



Lemma sleepTotal_app (a b : list Event) :
  sleepTotal (a ++ b) = sleepTotal a + sleepTotal b.
Proof.
  induction a as [|e a IH]; [done|]. destruct e; simpl; rewrite IH; lia.
Qed.

Lemma exitStatus_app (a b : list Event) :
  b <> [] -> exitStatus (a ++ b) = exitStatus b.
Proof.
  intros Hb. unfold exitStatus. rewrite last_app.
  destruct (last b) eqn:E; [done|]. by apply last_None in E.
Qed.

Section Process.

Variables infoColor successColor errorColor bannerColor : string -> string.
Variable DumpDatabase :
  string -> string -> string -> BackupOptions -> option string.

Local Abbreviation Run :=
  (Run infoColor successColor errorColor DumpDatabase).
Local Abbreviation main :=
  (main infoColor successColor errorColor bannerColor DumpDatabase).
Local Abbreviation banner := (printAnimatedBanner infoColor bannerColor).
Local Abbreviation versionRun := (versionRun infoColor).

Lemma main_version : main InvokeVersion = banner ++ versionRun.
Proof.
  unfold Dumper.main, Execute. rewrite app_nil_r.
  by rewrite untilExit_app by apply banner_safe.
Qed.

Lemma main_none (err : option string) :
  main (InvokeNone err)
  = banner ++ match err with
              | Some e => [PrintErr (errorColor "Error:"
                                     +:+ " Failed to execute command: "
                                     +:+ e +:+ nl);
                           Exit 1]
              | None => []
              end.
Proof.
  unfold Dumper.main, Execute.
  rewrite untilExit_app by apply banner_safe. by destruct err.
Qed.

Lemma banner_sleep : sleepTotal banner = 700.
Proof. reflexivity. Qed.

Lemma Run_sleep (f : Flags) : sleepTotal (Run f) = 0.
Proof.
  unfold Dumper.Run. destruct (validateInputs f); [done|].
  by destruct (DumpDatabase _ _ _ _).
Qed.

(** X7: the process exits with status 0 exactly when it ran the version
    command, or no command without a usage error, or the root command
    with flags that pass validation and an engine that returned no error;
    otherwise the status is 1, and an error of the engine is logged as it
    was returned. *)
Theorem main_exitStatus (i : Invocation) :
  (exitStatus (main i) = 0 \/ exitStatus (main i) = 1)
  /\ (exitStatus (main i) = 0
      <-> match i with
          | InvokeRoot f =>
              validateInputs f = None
              /\ DumpDatabase (dbType f) (connStr f) (outputFile f)
                   (optionsOf f) = None
          | InvokeVersion => True
          | InvokeNone err => err = None
          end)
  /\ (forall f err,
        i = InvokeRoot f -> validateInputs f = None ->
        DumpDatabase (dbType f) (connStr f) (outputFile f) (optionsOf f)
        = Some err ->
        last (main i)
        = Some (LogFatalf (errorColor "Error:"
                           +:+ " Failed to dump database: " +:+ err))).
Proof.
  destruct i as [f| |[e|]].
  - rewrite main_root. unfold Dumper.Run. fold (optionsOf f).
    destruct (validateInputs f) as [msg|] eqn:Ev.
    { rewrite exitStatus_app by done. split; [by right|].
      split; [by split; [|intros [? _]]|].
      intros f' err' [= <-] Hv. congruence. }
    destruct (DumpDatabase _ _ _ _) as [err|] eqn:Ed.
    + rewrite exitStatus_app, last_app by done.
      split; [by right|]. split; [by split; [|intros [_ ?]]|].
      intros f' err' [= <-] _. rewrite Ed. by intros [= <-].
    + rewrite exitStatus_app by done.
      split; [by left|]. split; [done|].
      intros f' err' [= <-] _. by rewrite Ed.
  - rewrite main_version, exitStatus_app by done.
    split; [by left|]. by split.
  - rewrite main_none, exitStatus_app by done.
    split; [by right|]. by split.
  - rewrite main_none, app_nil_r.
    assert (exitStatus banner = 0) as -> by reflexivity.
    split; [by left|]. by split.
Qed.

(** X8: whatever the command line, the process first prints the banner and
    sleeps 700 milliseconds in all, 100 after each banner line: also for
    the version command and when the flags are rejected. *)
Theorem main_banner_first (i : Invocation) :
  exists rest,
    main i = banner ++ rest
    /\ sleepTotal rest = 0
    /\ sleepTotal (main i) = 100 * Z.of_nat (length Dumper.banner).
Proof.
  assert (forall rest, sleepTotal rest = 0 ->
            sleepTotal (banner ++ rest)
            = 100 * Z.of_nat (length Dumper.banner)) as H.
  { intros rest Hr. by rewrite sleepTotal_app, Hr, banner_sleep. }
  destruct i as [f| |err].
  - exists (Run f). rewrite main_root.
    split; [done|]. split; [apply Run_sleep | apply H, Run_sleep].
  - exists versionRun. rewrite main_version. split; [done|]. by split; [|apply H].
  - eexists. rewrite main_none. split; [done|].
    destruct err; by split; [|apply H].
Qed.

(** X9: the engine is never entered with options out of bounds: every call
    of [DumpDatabase] in a process trace carries a valid database type, a
    non-empty output path, a batch size of at least 1, 1 to 50 workers and
    an exclusion list of non-empty, trimmed, comma-free names. *)
Theorem engine_call_within_bounds (i : Invocation)
  (t c out : string) (opts : BackupOptions) :
  CallDumpDatabase t c out opts ∈ main i ->
  validDbType t /\ out <> ""
  /\ 1 <= BatchSize opts /\ 1 <= MaxWorkers opts <= 50
  /\ Forall cleanEntry (Exclude opts).
Proof.
  intros Hin.
  assert (CallDumpDatabase t c out opts ∈ filter isCall (main i)) as H
    by (by apply list_elem_of_filter).
  rewrite main_calls in H. destruct i as [f| |err];
    [|by apply elem_of_nil in H..].
  rewrite Run_calls in H.
  destruct (validateInputs f) eqn:Ev; [by apply elem_of_nil in H|].
  apply list_elem_of_singleton in H. injection H as -> -> -> ->.
  apply validateInputs_None in Ev as (Hv & Hb & Hw & Ho).
  split; [done|]. split; [done|]. split; [done|]. split; [done|].
  apply Forall_forall. intros e. apply filterExcludeTables_clean.
Qed.

(** X10: with only the two required flags given, the defaults of [init] pass
    validation for every valid type and every connection string, the empty
    one included, and the engine gets the output path backup.sql, no
    compression, batches of 5000, 5 workers and no exclusion. *)
Theorem defaults_pass_validation (t c : string) :
  validDbType t ->
  validateInputs (requiredOnly t c) = None
  /\ filter isCall (Run (requiredOnly t c))
     = [CallDumpDatabase t c "backup.sql"
          {| Compress := false; BatchSize := 5000; MaxWorkers := 5;
             Exclude := [] |}].
Proof.
  intros Hv.
  assert (validateInputs (requiredOnly t c) = None) as E.
  { apply validateInputs_None. simpl. repeat split; try done; lia. }
  split; [done|]. by rewrite Run_calls, E.
Qed.

End Process.

Lemma filterExcludeTables_entries_witness :
  cleanEntry "users"
  /\ exists p l r,
       p ∈ Split " users ,,logs" ","%char /\ p = l +:+ "users" +:+ r
       /\ Spaces l /\ Spaces r.
Proof.
  apply (filterExcludeTables_entries " users ,,logs" "users").
  vm_compute. constructor.
Defined.

Lemma filterExcludeTables_join_witness :
  filterExcludeTables (String.concat "," ["users"; "order items"; "Logs"])
  = ["users"; "order items"; "Logs"].
Proof.
  apply (filterExcludeTables_join ["users"; "order items"; "Logs"]).
  repeat constructor; done.
Defined.

Lemma engine_call_within_bounds_witness :
  validDbType "MySQL" /\ "backup.sql" <> ""
  /\ 1 <= 5000 /\ 1 <= 5 <= 50
  /\ Forall cleanEntry ["users"; "logs"].
Proof.
  apply (engine_call_within_bounds noColor noColor noColor noColor engineOK
           (InvokeRoot (sampleFlags "MySQL"))
           "MySQL" "host=db" "backup.sql"
           {| Compress := true; BatchSize := 5000; MaxWorkers := 5;
              Exclude := ["users"; "logs"] |}).
  vm_compute. repeat constructor.
Defined.

Lemma defaults_pass_validation_witness :
  validateInputs (requiredOnly "postgres" "") = None
  /\ filter isCall (Run noColor noColor noColor engineOK
                      (requiredOnly "postgres" ""))
     = [CallDumpDatabase "postgres" "" "backup.sql"
          {| Compress := false; BatchSize := 5000; MaxWorkers := 5;
             Exclude := [] |}].
Proof.
  apply (defaults_pass_validation noColor noColor noColor engineOK
           "postgres" ""). by left.
Defined.

End DumperLaws.
